(** * MiaCat: a tray animation whose speed follows the CPU load

    A shallow embedding of [mia_cat.py].  Python values are modelled as
    follows.

    - [float] is IEEE binary64, here Rocq's primitive [float]; the operators
      [/] and [+] round to nearest-even exactly as CPython's do.
    - [dict] objects ([RUNNING_ANIMALS_MAPPING], the application path tables,
      the [ConfigParser] sections) are finite maps [gmap string _].
    - Exceptions are the [Raises] outcome of a small state-and-error monad
      over the [World] the program acts on.
    - The coroutine [start_running]/[run_animal] is a step function on an
      explicit control state; menu callbacks, which the tray library runs on
      another thread, are steps that interleave with it. *)

From Stdlib Require Import Floats ZArith QArith Qabs Lia DecimalString.
From stdpp Require Import gmap strings list.

#[local] Set Warnings "-inexact-float,-register-all".
#[local] Open Scope string_scope.
#[local] Open Scope list_scope.

(** ** Exceptions and outcomes *)

Inductive exn : Type :=
  | KeyError (key : string)
  | NameError (name : string)
  | IndexError
  | AttributeError (attr : string)
  | NoSectionError (section : string)
  | NoOptionError (option section : string)
  | ParsingError
  | OSError.

(** What a call does: it returns a value, raises, or never comes back
    (a blocking call the environment does not release). *)
Inductive outcome (A : Type) : Type :=
  | Returns (a : A)
  | Raises (e : exn)
  | Blocks.
Arguments Returns {A} a.
Arguments Raises {A} e.
Arguments Blocks {A}.

(** ** Frames *)

(** [Image.open(path)]: a frame is identified by the file it was opened
    from.  The bundled resource files are taken to be present. *)
Record Image : Type := Image_open { filename : string }.

#[global] Instance Image_eq_dec : EqDecision Image.
Proof. solve_decision. Defined.

(** [str(i)] for a non-negative [int]. *)
Definition str_nat (i : nat) : string := NilEmpty.string_of_uint (Nat.to_uint i).

(** [str(n)] for an [int]. *)
Definition str_int (n : Z) : string := NilEmpty.string_of_int (Z.to_int n).

(** [[Image.open(f"{prefix}{i}.png") for i in range(n)]] *)
Definition load_frames (prefix : string) (n : nat) : list Image :=
  map (fun i => Image_open (prefix +:+ str_nat i +:+ ".png")) (seq 0 n).

Definition RUNNING_ANIMALS_MAPPING : gmap string (list Image) :=
  list_to_map [
    ("white_cat", load_frames "./res/cat/white_cat_" 5);
    ("black_cat", load_frames "./res/cat/black_cat_" 5);
    ("white_horse", load_frames "./res/horse/white_horse_" 14);
    ("black_horse", load_frames "./res/horse/black_horse_" 14);
    ("white_parrot", load_frames "./res/parrot/white_parrot_" 10);
    ("black_parrot", load_frames "./res/parrot/black_parrot_" 10)
  ].

(** The six variant keys, in the order of the dictionary literal. *)
Definition variant_keys : list string :=
  ["white_cat"; "black_cat"; "white_horse"; "black_horse";
   "white_parrot"; "black_parrot"].

(** ** The delay law *)

(** [sleep_duration = 0.01 / (cpu_percent / 100 + 0.1)], in binary64.
    Python raises ZeroDivisionError where the divisor is 0.0; that takes a
    reading of -10, and the sampler's readings lie in [0, 100]. *)
Definition sleep_duration (cpu_percent : float) : float :=
  (0.01 / (cpu_percent / 100 + 0.1))%float.

(** The same formula read over the rationals, as the specification writes
    it: [delay(p) = 0.01 / (p/100 + 0.1)]. *)
Definition delay (p : Q) : Q := ((1 # 100) / (p / 100 + (1 # 10)))%Q.

(** The exact value of a finite binary64 number. *)
Definition Q_of_float (x : float) : option Q :=
  match Prim2SF x with
  | S754_zero _ => Some 0%Q
  | S754_finite s m e =>
      let mag := (inject_Z (Z.pos m) * Qpower 2 e)%Q in
      Some (if s then Qopp mag else mag)
  | _ => None
  end.

(** The CPU sampler reports percentages with one decimal: the reading
    [k / 10] for [k] from 0 to 1000. *)
Definition reading (k : nat) : float :=
  (of_uint63 (Uint63.of_Z (Z.of_nat k)) / 10)%float.

(** ** The world the program acts on *)

(** The tray title is kept as the reading it was formatted from. *)
Inductive Title : Type :=
  | TitleInit (cpu : float)   (* "CPU : " + str(cpu) *)
  | TitleRun (cpu : float).   (* f"CPU: {str(cpu)} %" *)

(** Effects visible outside the process, in the order they happen. *)
Inductive Event : Type :=
  | LogError (msg : string)          (* logger.error(msg) *)
  | LogInfo (msg : string)           (* logger.info(msg) *)
  | Popen (argv : list string)       (* subprocess.Popen(argv) is called *)
  | ProcWait                         (* proc.wait() is called *)
  | Sleep (d : float)                (* await asyncio.sleep(d) *)
  | SetIcon (img : Image)            (* self.mia_cat.icon = img *)
  | SetTitle (t : Title)             (* self.mia_cat.title = t *)
  | CreateMutex                      (* win32event.CreateMutex(...) *)
  | ThreadStart                      (* main_thread.start() *)
  | TrayRun                          (* self.mia_cat.run() *)
  | LoopStop                         (* self.even_loop.stop() *)
  | TrayStop                         (* self.mia_cat.stop() *)
  | WriteFile (path : string)        (* open(path, "w") ... config.write *)
  | CloseHandle.                     (* win32api.CloseHandle(...) *)

#[global] Instance Event_inhabited : Inhabited Event := populate ProcWait.

(** A [ConfigParser]: section name, then option name, then value. *)
Abbreviation Config := (gmap string (gmap string string)).

(** The settings file on disk: absent, not parsable as an INI file, or
    holding the sections a [ConfigParser] wrote or would read. *)
Inductive ini_file : Type :=
  | FileAbsent
  | FileGarbled
  | FileIni (c : Config).

Record World : Type := {
  trace : list Event;        (* effects so far, oldest first *)
  cpu_samples : nat;         (* calls to psutil.cpu_percent() so far *)
  settings_ini : ini_file;   (* ./ini/settings.ini *)
  config : Config;           (* the module-level [config] object *)
}.

(** What a spawned child does, as far as [Popen] and [wait] can tell. *)
Inductive child : Type :=
  | SpawnFails                   (* Popen raises *)
  | ChildExits (returncode : Z)  (* wait() returns this code *)
  | ChildRuns.                   (* wait() never returns *)

(** Everything the program takes from its platform and collaborators. *)
Record Env : Type := {
  IS_WINDOWS : bool;                              (* platform.system() == "Windows" *)
  find_windows_abspath : string -> option string; (* utils *)
  find_mac_abspath : string -> option string;     (* utils *)
  cpu_percent : nat -> float;                     (* n-th psutil.cpu_percent() *)
  spawn : list string -> child;                   (* the OS, on Popen(argv) *)
  already_running : bool;                         (* another instance is alive *)
}.

(** ** A state-and-error monad over the world *)

Definition M (A : Type) : Type := World -> outcome A * World.

#[global] Instance M_ret : MRet M := fun A a w => (Returns a, w).

#[global] Instance M_bind : MBind M := fun A B k c w =>
  match c w with
  | (Returns a, w') => k a w'
  | (Raises e, w') => (Raises e, w')
  | (Blocks, w') => (Blocks, w')
  end.

Definition raise {A} (e : exn) : M A := fun w => (Raises e, w).

Definition hang {A} : M A := fun w => (Blocks, w).

Definition emit (e : Event) : M unit :=
  fun w =>
    (Returns tt,
     {| trace := trace w ++ [e]; cpu_samples := cpu_samples w;
        settings_ini := settings_ini w; config := config w |}).

(** [table[key]] on a dict. *)
Definition subscript {V} (table : gmap string V) (key : string) : M V :=
  match table !! key with
  | Some v => mret v
  | None => raise (KeyError key)
  end.

(** [seq[i]] on a list. *)
Definition index {A} (l : list A) (i : nat) : M A :=
  match l !! i with
  | Some x => mret x
  | None => raise IndexError
  end.

(** Reading a module-level name that may not have been bound. *)
Definition global {A} (name : string) (binding : option A) : M A :=
  match binding with
  | Some v => mret v
  | None => raise (NameError name)
  end.

(** *** configparser *)

Definition new_config : M unit :=
  fun w =>
    (Returns tt,
     {| trace := trace w; cpu_samples := cpu_samples w;
        settings_ini := settings_ini w; config := ∅ |}).

(** [config.read(path)]: a missing file is skipped silently; what the file
    holds is merged over what the parser already has. *)
Definition config_read : M unit :=
  fun w =>
    match settings_ini w with
    | FileAbsent => (Returns tt, w)
    | FileGarbled => (Raises ParsingError, w)
    | FileIni c =>
        (Returns tt,
         {| trace := trace w; cpu_samples := cpu_samples w;
            settings_ini := settings_ini w; config := union_with (fun new old => Some (new ∪ old)) c (config w) |})
    end.

(** [config.get(section, option)] *)
Definition config_get (section option : string) : M string :=
  fun w =>
    match config w !! section with
    | None => (Raises (NoSectionError section), w)
    | Some opts =>
        match opts !! option with
        | None => (Raises (NoOptionError option section), w)
        | Some v => (Returns v, w)
        end
    end.

(** [config.set(section, option, value)] *)
Definition config_set (section option value : string) : M unit :=
  fun w =>
    match config w !! section with
    | None => (Raises (NoSectionError section), w)
    | Some opts =>
        (Returns tt,
         {| trace := trace w; cpu_samples := cpu_samples w;
            settings_ini := settings_ini w;
            config := <[section := <[option := value]> opts]> (config w) |})
    end.

(** [with open(path, "w") as cf: config.write(cf)] *)
Definition config_write (path : string) : M unit :=
  fun w =>
    (Returns tt,
     {| trace := trace w ++ [WriteFile path]; cpu_samples := cpu_samples w;
        settings_ini := FileIni (config w); config := config w |}).

(** ** The tray menu *)

(** The body of a menu callback. *)
Inductive Action : Type :=
  | ChangeRunningAnimal (name key : string)
      (* lambda icon, item:
           self.change_running_animal(name, RUNNING_ANIMALS_MAPPING[key]) *)
  | LaunchApp (app_name : string)
      (* lambda icon, item: self.launch_app(app_name) *)
  | StopMiaCat.
      (* self.stop_mia_cat *)

Inductive MenuItem : Type :=
  | Item (text : string) (action : Action)
  | Submenu (text : string) (items : list MenuItem).

Definition cat_menu : list MenuItem :=
  [ Item "While Cat" (ChangeRunningAnimal "white_cat" "white_cat");
    Item "Black Cat" (ChangeRunningAnimal "black_cat" "black_cat") ].

Definition horse_menu : list MenuItem :=
  [ Item "White Horse" (ChangeRunningAnimal "white_horse" "white_horse");
    Item "Black Horse" (ChangeRunningAnimal "black_horse" "black_horse") ].

Definition parrot_menu : list MenuItem :=
  [ Item "White Parrot" (ChangeRunningAnimal "white_parrot" "white_parrot");
    Item "Black Parrot" (ChangeRunningAnimal "black_parrot" "black_parrot") ].

Definition animal_menus : list MenuItem :=
  [ Submenu "Cat" cat_menu;
    Submenu "Horse" horse_menu;
    Submenu "Parrot" parrot_menu ].

Definition mac_app_menus : list MenuItem :=
  [ Item "WeChat" (LaunchApp "wechat");
    Item "QQ" (LaunchApp "qq");
    Item "Chrome" (LaunchApp "chrome") ].

Definition make_menu : list MenuItem :=
  [ Submenu "Animals" animal_menus;
    Submenu "Apps" mac_app_menus;
    Item "Exit" StopMiaCat ].

(** The callbacks a menu offers, depth first. *)
Fixpoint callbacks (m : MenuItem) : list Action :=
  match m with
  | Item _ a => [a]
  | Submenu _ items => flat_map callbacks items
  end.

Definition menu_callbacks (menu : list MenuItem) : list Action :=
  flat_map callbacks menu.

(** The callbacks under "Animals". *)
Definition change_animal_callbacks : list Action :=
  menu_callbacks animal_menus.

(** ** The application object *)

Record MiaCat : Type := {
  running_animal : string;
  running_animal_icons : list Image;
  even_loop : bool;          (* [false] is None, [true] a created loop *)
  mia_cat_mutex : bool;      (* [false] is None, [true] a mutex handle *)
  icon : Image;              (* self.mia_cat.icon *)
  title : Title;             (* self.mia_cat.title *)
  menu : list MenuItem;      (* self.mia_cat.menu *)
}.

(** Where the coroutine [start_running] stands. *)
Inductive Loop : Type :=
  | AtTop
      (* in [while True], about to call [run_animal] *)
  | InFor (icons : list Image) (position : nat) (sleep_duration : float).
      (* in [for animal_icon in ...]: the iterator holds the list it was
         created on and the position of the next item *)

Record App : Type := {
  self : MiaCat;
  loop : Loop;
  world : World;
}.

Definition change_running_animal
    (new_running_animal : string) (new_animal_icons : list Image)
    (self : MiaCat) : MiaCat :=
  {| running_animal := new_running_animal;
     running_animal_icons := new_animal_icons;
     even_loop := even_loop self; mia_cat_mutex := mia_cat_mutex self;
     icon := icon self; title := title self; menu := menu self |}.

Definition set_icon (img : Image) (self : MiaCat) : MiaCat :=
  {| running_animal := running_animal self;
     running_animal_icons := running_animal_icons self;
     even_loop := even_loop self; mia_cat_mutex := mia_cat_mutex self;
     icon := img; title := title self; menu := menu self |}.

Definition set_title (t : Title) (self : MiaCat) : MiaCat :=
  {| running_animal := running_animal self;
     running_animal_icons := running_animal_icons self;
     even_loop := even_loop self; mia_cat_mutex := mia_cat_mutex self;
     icon := icon self; title := t; menu := menu self |}.

Definition set_even_loop (self : MiaCat) : MiaCat :=
  {| running_animal := running_animal self;
     running_animal_icons := running_animal_icons self;
     even_loop := true; mia_cat_mutex := mia_cat_mutex self;
     icon := icon self; title := title self; menu := menu self |}.

Definition set_mia_cat_mutex (self : MiaCat) : MiaCat :=
  {| running_animal := running_animal self;
     running_animal_icons := running_animal_icons self;
     even_loop := even_loop self; mia_cat_mutex := true;
     icon := icon self; title := title self; menu := menu self |}.

Definition INI_FILE_PATH : string := "./ini/settings.ini".

(** The character [chr(34)]. *)
Definition dquote : string := String (Ascii.ascii_of_nat 34) EmptyString.

(** [str(x)] for a path that may be None. *)
Definition str_path (p : option string) : string :=
  match p with
  | Some s => s
  | None => "None"
  end.

Section Program.

Context (E : Env).

(** Exactly one of the two tables is bound at import time. *)
Definition WINDOWS_APP_PATH : option (gmap string (option string)) :=
  if IS_WINDOWS E then
    Some (list_to_map [
      ("wechat", find_windows_abspath E "WeChat.exe");
      ("qq", find_windows_abspath E "QQ.exe");
      ("chrome", find_windows_abspath E "chrome.exe") ])
  else None.

Definition MAC_APP_PATH : option (gmap string (option string)) :=
  if IS_WINDOWS E then None
  else
    Some (list_to_map [
      ("wechat", find_mac_abspath E "WeChat.app");
      ("qq", find_mac_abspath E "QQ.app");
      ("chrome", find_mac_abspath E "Google Chrome.app") ]).

Definition get_cpu_percent : M float :=
  fun w =>
    (Returns (cpu_percent E (cpu_samples w)),
     {| trace := trace w; cpu_samples := S (cpu_samples w);
        settings_ini := settings_ini w; config := config w |}).

(** [MiaCat.__init__] *)
Definition MiaCat_init (running_animal : string) : M MiaCat :=
  icons ← subscript RUNNING_ANIMALS_MAPPING running_animal;
  cpu ← get_cpu_percent;
  first ← index icons 0;
  mret {| running_animal := running_animal;
          running_animal_icons := icons;
          even_loop := false; mia_cat_mutex := false;
          icon := first; title := TitleInit cpu; menu := make_menu |}.

(** [subprocess.Popen(argv)] followed by [proc.wait()] *)
Definition Popen_call (argv : list string) : M child :=
  emit (Popen argv);;
  match spawn E argv with
  | SpawnFails => raise OSError
  | c => mret c
  end.

Definition proc_wait (proc : child) : M Z :=
  emit ProcWait;;
  match proc with
  | ChildExits returncode => mret returncode
  | _ => hang
  end.

Definition launch_app (app_name : string) : M unit :=
  app_path ←
    (if IS_WINDOWS E then
       table ← global "WINDOWS_APP_PATH" WINDOWS_APP_PATH;
       subscript table app_name
     else
       table ← global "MAC_APP_PATH" MAC_APP_PATH;
       subscript table app_name);
  match app_path with
  | None =>
      emit (LogError ("Application name " +:+ dquote +:+ app_name +:+ dquote
                      +:+ " is called, but could not find path"))
  | Some path =>
      proc ← Popen_call ["open"; "-a"; path];
      return_code ← proc_wait proc;
      if bool_decide (return_code ≠ 0%Z) then
        table ← global "MAC_APP_PATH" MAC_APP_PATH;
        shown ← subscript table app_name;
        emit (LogError ("Application " +:+ str_path shown
                        +:+ " failed to start with return code "
                        +:+ str_int return_code +:+ "."))
      else mret tt
  end.

(** [is_app_running]: the mutex on Windows, a process scan elsewhere. *)
Definition is_app_running (self : MiaCat) : M (bool * MiaCat) :=
  if IS_WINDOWS E then
    emit CreateMutex;;
    if already_running E then
      emit (LogInfo "MiaCat is already running. Exiting.");;
      mret (true, set_mia_cat_mutex self)
    else mret (false, set_mia_cat_mutex self)
  else
    if already_running E then
      emit (LogInfo "MiaCat is already running. Exiting.");;
      mret (true, self)
    else mret (false, self).

(** [start_mia_cat]: [None] when another instance made it return at once,
    otherwise the object as the tray and the loop thread start with it. *)
Definition start_mia_cat (self : MiaCat) : M (option MiaCat) :=
  '(running, self) ← is_app_running self;
  if (running : bool) then mret None
  else
    emit ThreadStart;;
    emit TrayRun;;
    mret (Some (set_even_loop self)).

Definition stop_mia_cat (self : MiaCat) : M unit :=
  (if even_loop self then emit LoopStop else raise (AttributeError "stop"));;
  emit TrayStop;;
  config_set "animal" "run_animal" (running_animal self);;
  config_write INI_FILE_PATH;;
  if IS_WINDOWS E then emit CloseHandle else mret tt.

(** The [__main__] block. *)
Definition main : M (option MiaCat) :=
  new_config;;
  config_read;;
  run_animal ← config_get "animal" "run_animal";
  mia_cat ← MiaCat_init run_animal;
  start_mia_cat mia_cat.

(** A process start on a given settings file. *)
Definition fresh_world (f : ini_file) : World :=
  {| trace := []; cpu_samples := 0; settings_ini := f; config := ∅ |}.

Definition boot (f : ini_file) : outcome (option App) :=
  match main (fresh_world f) with
  | (Returns (Some mia_cat), w) =>
      Returns (Some {| self := mia_cat; loop := AtTop; world := w |})
  | (Returns None, _) => Returns None
  | (Raises e, _) => Raises e
  | (Blocks, _) => Blocks
  end.

(** One step of the coroutine: entering [run_animal] up to the creation of
    the [for] iterator, or one turn of the [for] loop. *)
Definition loop_step (s : App) : App :=
  match loop s with
  | AtTop =>
      let cpu := cpu_percent E (cpu_samples (world s)) in
      {| self := set_title (TitleRun cpu) (self s);
         loop := InFor (running_animal_icons (self s)) 0 (sleep_duration cpu);
         world :=
           {| trace := trace (world s) ++ [SetTitle (TitleRun cpu)];
              cpu_samples := S (cpu_samples (world s));
              settings_ini := settings_ini (world s);
              config := config (world s) |} |}
  | InFor icons position d =>
      match icons !! position with
      | Some animal_icon =>
          {| self := set_icon animal_icon (self s);
             loop := InFor icons (S position) d;
             world :=
               {| trace := trace (world s) ++ [Sleep d; SetIcon animal_icon];
                  cpu_samples := cpu_samples (world s);
                  settings_ini := settings_ini (world s);
                  config := config (world s) |} |}
      | None =>
          {| self := self s; loop := AtTop; world := world s |}
      end
  end.

(** One menu callback, run to its end on the tray's thread. *)
Definition menu_step (a : Action) (s : App) : outcome unit * App :=
  match a with
  | ChangeRunningAnimal name key =>
      match RUNNING_ANIMALS_MAPPING !! key with
      | Some icons =>
          (Returns tt,
           {| self := change_running_animal name icons (self s);
              loop := loop s; world := world s |})
      | None => (Raises (KeyError key), s)
      end
  | LaunchApp app_name =>
      let r := launch_app app_name (world s) in
      (r.1, {| self := self s; loop := loop s; world := r.2 |})
  | StopMiaCat =>
      let r := stop_mia_cat (self s) (world s) in
      (r.1, {| self := self s; loop := loop s; world := r.2 |})
  end.

(** What the two threads do, in the order the interpreter lock lets them. *)
Inductive Tick : Type :=
  | LoopTick
  | MenuTick (a : Action).

(** The tray goes on after a callback that returned, other than Exit. *)
Definition goes_on (a : Action) (r : outcome unit) : bool :=
  match a, r with
  | StopMiaCat, _ => false
  | _, Returns _ => true
  | _, _ => false
  end.

(** A schedule is followed until the Exit callback or a callback that does
    not return. *)
Fixpoint run (ticks : list Tick) (s : App) : App :=
  match ticks with
  | [] => s
  | LoopTick :: rest => run rest (loop_step s)
  | MenuTick a :: rest =>
      let r := menu_step a s in
      if goes_on a r.1 then run rest r.2 else r.2
  end.

(** [n] steps of the coroutine with no callback in between. *)
Definition loop_steps (n : nat) (s : App) : App := Nat.iter n loop_step s.

(** The frames a stretch of the trace put on the tray. *)
Definition frames_shown (events : list Event) : list Image :=
  omap (fun e => match e with SetIcon img => Some img | _ => None end) events.

(** The frames shown since the world was [before]. *)
Definition shown_since (before : App) (now : App) : list Image :=
  frames_shown (drop (length (trace (world before))) (trace (world now))).

End Program.

(** ** Checks on the delay over the sampler's readings *)

(** The exact value of the delay the code computes at the reading [k / 10]
    (0 where the result is not a finite number). *)
Definition delay_at (k : nat) : Q :=
  default 0%Q (Q_of_float (sleep_duration (reading k))).

(** The computed delay is finite and within a relative [2^-51] of the
    rational formula at [k / 10]. *)
Definition close_at (k : nat) : bool :=
  match Q_of_float (sleep_duration (reading k)) with
  | Some y =>
      Qle_bool (Qabs (y - delay (Z.of_nat k # 10)))
               (delay (Z.of_nat k # 10) * (1 # 2 ^ 51))
  | None => false
  end.

(** Each element is at most the one before it. *)
Fixpoint descending (l : list Q) : bool :=
  match l with
  | x :: (y :: _) as rest => Qle_bool y x && descending rest
  | _ => true
  end.

(** ** Vocabulary of the statements *)

(** What one pass over [icons] with delay [d] adds to the trace. *)
Definition pass_events (d : float) (icons : list Image) : list Event :=
  flat_map (fun img => [Sleep d; SetIcon img]) icons.

(** The path [launch_app] resolves a name to on this platform: [None] when
    the name is not in the table, [Some None] when the table holds None. *)
Definition app_path_of (E : Env) (app_name : string) : option (option string) :=
  table ← (if IS_WINDOWS E then WINDOWS_APP_PATH E else MAC_APP_PATH E);
  table !! app_name.

(** The entry [run_animal] of section [animal], if the file has one. *)
Definition settings_entry (f : ini_file) : option string :=
  match f with
  | FileIni c => opts ← c !! "animal"; opts !! "run_animal"
  | _ => None
  end.

(** The ticks a running tray can produce: steps of the coroutine and the
    callbacks of its menu. *)
Definition menu_tick (t : Tick) : Prop :=
  match t with
  | LoopTick => True
  | MenuTick a => a ∈ menu_callbacks make_menu
  end.

(** The stored name and the stored frame list agree. *)
Definition icons_match (s : App) : Prop :=
  RUNNING_ANIMALS_MAPPING !! running_animal (self s)
    = Some (running_animal_icons (self s)).

(** What holds of the application from the moment the tray runs. *)
Record consistent (s : App) : Prop := {
  icons_of_animal : icons_match s;
  loop_created : even_loop (self s) = true;
  section_present : is_Some (config (world s) !! "animal");
}.

(** The reading of the specification that the [for] loop looks the frame
    list up again on every turn: whatever the schedule, the list under
    iteration is the one currently selected. *)
Definition reread_every_turn (E : Env) (s : App) : Prop :=
  forall ticks icons position d,
    loop (run E ticks s) = InFor icons position d ->
    icons = running_animal_icons (self (run E ticks s)).

(** The reading of the specification that the launcher does not wait for
    what it spawned. *)
Definition fire_and_forget (E : Env) (app_name : string) (w : World) : Prop :=
  ProcWait ∉ trace (launch_app E app_name w).2.

(** Appending to the trace, the one way the launcher touches the world. *)
Definition with_events (w : World) (events : list Event) : World :=
  {| trace := trace w ++ events; cpu_samples := cpu_samples w;
     settings_ini := settings_ini w; config := config w |}.

(** Two states that differ at most in what was traced so far. *)
Definition same_but_trace (s s' : App) : Prop :=
  self s' = self s /\ loop s' = loop s /\
  cpu_samples (world s') = cpu_samples (world s) /\
  settings_ini (world s') = settings_ini (world s) /\
  config (world s') = config (world s).

(** ** Sample platforms and states *)

Definition settings (animal : string) : Config :=
  {[ "animal" := {[ "run_animal" := animal ]} ]}.

Definition mac : Env :=
  {| IS_WINDOWS := false;
     find_windows_abspath := fun _ => None;
     find_mac_abspath := fun name =>
       if String.eqb name "QQ.app" then None else Some ("/Applications/" +:+ name);
     cpu_percent := fun n => reading (10 * n);
     spawn := fun _ => ChildExits 0;
     already_running := false |}.

Definition windows : Env :=
  {| IS_WINDOWS := true;
     find_windows_abspath := fun name =>
       if String.eqb name "QQ.exe" then None else Some ("C:/Apps/" +:+ name);
     find_mac_abspath := fun _ => None;
     cpu_percent := fun n => reading (10 * n);
     spawn := fun _ => ChildExits 1;
     already_running := false |}.

(** A platform whose [open] never exits. *)
Definition stuck_mac : Env :=
  {| IS_WINDOWS := false;
     find_windows_abspath := find_windows_abspath mac;
     find_mac_abspath := find_mac_abspath mac;
     cpu_percent := cpu_percent mac;
     spawn := fun _ => ChildRuns;
     already_running := false |}.

(** The application as [boot mac] leaves it on a file selecting the white
    cat. *)
Definition demo_app : App :=
  {| self :=
       {| running_animal := "white_cat";
          running_animal_icons := load_frames "./res/cat/white_cat_" 5;
          even_loop := true; mia_cat_mutex := false;
          icon := Image_open "./res/cat/white_cat_0.png";
          title := TitleInit 0; menu := make_menu |};
     loop := AtTop;
     world :=
       {| trace := [ThreadStart; TrayRun]; cpu_samples := 1;
          settings_ini := FileIni (settings "white_cat");
          config := settings "white_cat" |} |}.

(** ** The process scan of the instance guard *)

(** What [psutil] tells about one live process.  [None] stands for a call
    that raises NoSuchProcess, AccessDenied or ZombieProcess. *)
Record process : Type := {
  proc_name : option string;            (* proc.name() *)
  proc_cmdline : option (list string);  (* proc.cmdline() *)
}.

(** [needle in hay] on two strings. *)
Fixpoint str_contains (needle hay : string) : bool :=
  String.prefix needle hay
  || match hay with
     | EmptyString => false
     | String _ rest => str_contains needle rest
     end.

(** The test of the [if] in the scan:
    ["python" in proc.name() and "mia_cat.py" in proc.cmdline()];
    [None] when a call it makes raises. *)
Definition looks_like_mia_cat (p : process) : option bool :=
  match proc_name p with
  | None => None
  | Some name =>
      if str_contains "python" name then
        match proc_cmdline p with
        | None => None
        | Some args => Some (bool_decide ("mia_cat.py" ∈ args))
        end
      else Some false
  end.

(** The non-Windows branch of [is_app_running] over the processes that
    [psutil.process_iter()] yields: the first match answers True; an
    exception of the three kinds leaves the [with] block, and the function
    answers False. *)
Fixpoint process_scan (procs : list process) : bool :=
  match procs with
  | [] => false
  | p :: rest =>
      match looks_like_mia_cat p with
      | Some true => true
      | Some false => process_scan rest
      | None => false
      end
  end.

(** ** More vocabulary *)

(** The events the coroutine is there to produce. *)
Definition animation_event (e : Event) : bool :=
  match e with
  | Sleep _ | SetIcon _ | SetTitle _ => true
  | _ => false
  end.

Definition is_spawn (e : Event) : bool :=
  match e with Popen _ => true | _ => false end.

Definition is_wait (e : Event) : bool :=
  match e with ProcWait => true | _ => false end.

Definition is_log_error (e : Event) : bool :=
  match e with LogError _ => true | _ => false end.

(** How many events of a kind a stretch of the trace holds. *)
Definition tally (kind : Event -> bool) (events : list Event) : nat :=
  length (List.filter kind events).

(** A frame of one of the lists of the table. *)
Definition loaded_frame (img : Image) : Prop :=
  exists key icons, RUNNING_ANIMALS_MAPPING !! key = Some icons /\ img ∈ icons.

(** The iterator of the [for] loop is on a list of the table, at a
    position within it or just past its end. *)
Definition loop_in_table (lp : Loop) : Prop :=
  match lp with
  | AtTop => True
  | InFor icons position _ =>
      position <= length icons /\
      exists key, RUNNING_ANIMALS_MAPPING !! key = Some icons
  end.

(** The value of an option of a section. *)
Definition entry_of (c : Config) (section key : string) : option string :=
  opts ← c !! section; opts !! key.

(** A tick other than the Exit callback. *)
Definition not_exit (t : Tick) : Prop := t <> MenuTick StopMiaCat.

(** A platform that differs from [E] in what the instance guard finds. *)
Definition with_guard (E : Env) (found : bool) : Env :=
  {| IS_WINDOWS := IS_WINDOWS E;
     find_windows_abspath := find_windows_abspath E;
     find_mac_abspath := find_mac_abspath E;
     cpu_percent := cpu_percent E;
     spawn := spawn E;
     already_running := found |}.

(** ** More samples *)

Definition finder : process :=
  {| proc_name := Some "Finder";
     proc_cmdline := Some ["/System/Library/CoreServices/Finder.app"] |}.

(** A process whose name cannot be read. *)
Definition zombie : process :=
  {| proc_name := None; proc_cmdline := None |}.

Definition running_mia_cat : process :=
  {| proc_name := Some "python3.11";
     proc_cmdline := Some ["python3"; "mia_cat.py"] |}.

(** * Theorems *)

(** ** The delay law *)

Lemma shifted_positive (p : Q) : (0 <= p)%Q -> (0 < p + 10)%Q.
Proof.
  intros Hp. apply Qlt_le_trans with (0 + 10)%Q; [reflexivity |].
  apply Qplus_le_compat; [assumption | apply Qle_refl].
Qed.

Lemma delay_inverse (p : Q) : (0 <= p)%Q -> (delay p == / (p + 10))%Q.
Proof.
  intros Hp. unfold delay. field.
  intros H. pose proof (shifted_positive p Hp) as Hpos.
  rewrite H in Hpos. revert Hpos. apply Qlt_irrefl.
Qed.

Lemma delay_antitone (p q : Q) :
  (0 <= p)%Q -> (p <= q)%Q -> (delay q <= delay p)%Q.
Proof.
  intros Hp Hpq.
  assert (Hq : (0 <= q)%Q) by (eapply Qle_trans; eassumption).
  rewrite (delay_inverse p Hp), (delay_inverse q Hq).
  pose proof (shifted_positive p Hp) as Hp10.
  pose proof (shifted_positive q Hq) as Hq10.
  apply Qle_shift_inv_l; [assumption |].
  rewrite Qmult_comm. change ((p + 10) / (q + 10) <= 1)%Q.
  apply Qle_shift_div_r; [assumption |].
  rewrite Qmult_1_l. apply Qplus_le_compat; [assumption | apply Qle_refl].
Qed.

Lemma descending_lookup (l : list Q) (i j : nat) (x y : Q) :
  descending l = true -> (i <= j)%nat ->
  l !! i = Some x -> l !! j = Some y -> (y <= x)%Q.
Proof.
  revert i j x y.
  induction l as [| a l IH]; intros i j x y Hd Hij Hi Hj; [done |].
  assert (Hl : descending l = true).
  { destruct l as [| b l]; [done |]. simpl in Hd.
    apply andb_true_iff in Hd. apply Hd. }
  assert (Hhead : forall k z, l !! k = Some z -> (z <= a)%Q).
  { clear i j x y Hij Hi Hj. intros k.
    induction k as [| k IHk]; intros z Hz.
    - destruct l as [| b l]; [done |]. simpl in Hd, Hz.
      injection Hz as <-. apply andb_true_iff in Hd.
      apply Qle_bool_iff, Hd.
    - destruct (l !! k) as [u |] eqn:Hu.
      + apply Qle_trans with u; [| by apply IHk].
        apply (IH k (S k) u z); [done | lia | done | done].
      + apply lookup_ge_None in Hu. apply lookup_lt_Some in Hz. lia. }
  destruct i as [| i], j as [| j]; simpl in Hi, Hj.
  - injection Hi as <-. injection Hj as <-. apply Qle_refl.
  - injection Hi as <-. by eapply Hhead.
  - lia.
  - apply (IH i j); [done | lia | done | done].
Qed.

Lemma close_at_grid : forallb close_at (seq 0 1001) = true.
Proof. vm_compute. reflexivity. Qed.

Lemma descending_grid : descending (map delay_at (seq 0 1001)) = true.
Proof. vm_compute. reflexivity. Qed.

Lemma delay_at_lookup (k : nat) :
  (k <= 1000)%nat -> map delay_at (seq 0 1001) !! k = Some (delay_at k).
Proof.
  intros Hk. rewrite list_lookup_fmap, lookup_seq_lt by lia. reflexivity.
Qed.

Lemma close_at_reading (k : nat) :
  (k <= 1000)%nat ->
  exists y : Q,
    Q_of_float (sleep_duration (reading k)) = Some y /\
    (Qabs (y - delay (Z.of_nat k # 10))
       <= delay (Z.of_nat k # 10) * (1 # 2 ^ 51))%Q.
Proof.
  intros Hk.
  pose proof close_at_grid as Hall.
  rewrite forallb_forall in Hall.
  specialize (Hall k). unfold close_at in Hall.
  destruct (Q_of_float (sleep_duration (reading k))) as [y |].
  - exists y. split; [reflexivity |].
    apply Qle_bool_iff, Hall, in_seq. lia.
  - discriminate Hall. apply in_seq. lia.
Qed.

(** C1, as stated, fails at the reading 0: the binary64 quotient the loop
    computes there is 0.09999999999999999, the double just below 0.1, and
    Python's [==] tells the two apart. *)
Lemma idle_delay_is_below_a_tenth :
  sleep_duration 0%float = 0.09999999999999999%float /\
  sleep_duration 0%float <> 0.1%float /\
  (sleep_duration 0 =? 0.1)%float = false.
Proof.
  split; [reflexivity |]. split; [| reflexivity].
  intros H. apply (f_equal Prim2SF) in H. vm_compute in H. discriminate H.
Qed.

(** C1, amended.  Entering a pass with the reading [p], the loop fixes the
    delay of every frame of the pass to the binary64 value of
    [0.01 / (p / 100 + 0.1)].  Over the rationals that formula does not
    increase on [0, 100], is exactly 1/10 at 0 and 1/110 (0.00909 to five
    decimals) at 100.  The binary64 value stays within a relative [2^-51] of
    the formula at every one-decimal reading [k / 10], does not increase
    along those readings, is 0.09999999999999999 at 0 and
    0.00909090909090909 at 100. *)
Theorem delay_law (E : Env) (s : App) (p q : Q) (j k : nat) :
  loop s = AtTop ->
  (0 <= p)%Q -> (p <= q)%Q -> (q <= 100)%Q ->
  (j <= k)%nat -> (k <= 1000)%nat ->
  loop (loop_step E s)
    = InFor (running_animal_icons (self s)) 0
            (sleep_duration (cpu_percent E (cpu_samples (world s)))) /\
  (delay q <= delay p)%Q /\
  (delay 0 == 1 # 10)%Q /\
  (delay 100 == 1 # 110)%Q /\
  (Qabs (delay 100 - (909 # 100000)) < 1 # 100000)%Q /\
  (exists y : Q,
      Q_of_float (sleep_duration (reading k)) = Some y /\
      (Qabs (y - delay (Z.of_nat k # 10))
         <= delay (Z.of_nat k # 10) * (1 # 2 ^ 51))%Q) /\
  (delay_at k <= delay_at j)%Q /\
  sleep_duration 0%float = 0.09999999999999999%float /\
  sleep_duration 100%float = 0.00909090909090909%float.
Proof.
  intros Htop Hp Hpq Hq Hjk Hk.
  split; [unfold loop_step; rewrite Htop; reflexivity |].
  split; [by apply delay_antitone |].
  split; [reflexivity |].
  split; [reflexivity |].
  split; [reflexivity |].
  split; [by apply close_at_reading |].
  split; [| split; reflexivity].
  eapply descending_lookup;
    [apply descending_grid | exact Hjk | apply delay_at_lookup; lia
    | by apply delay_at_lookup].
Qed.

(** ** The samples are what the program produces *)

Lemma boot_demo : boot mac (FileIni (settings "white_cat")) = Returns (Some demo_app).
Proof. vm_compute. reflexivity. Qed.

(** ** The coroutine, step by step *)

Section Coroutine.

Context (E : Env).

Lemma loop_steps_S (n : nat) (s : App) :
  loop_steps E (S n) s = loop_step E (loop_steps E n s).
Proof. reflexivity. Qed.

Lemma loop_steps_after (m n : nat) (s : App) :
  loop_steps E (n + m) s = loop_steps E m (loop_steps E n s).
Proof.
  unfold loop_steps. rewrite Nat.add_comm. apply Nat.iter_add.
Qed.

Lemma frames_shown_app (xs ys : list Event) :
  frames_shown (xs ++ ys) = frames_shown xs ++ frames_shown ys.
Proof. apply omap_app. Qed.

Lemma frames_shown_pass (d : float) (icons : list Image) :
  frames_shown (pass_events d icons) = icons.
Proof.
  induction icons as [| img icons IH]; [reflexivity |].
  simpl. unfold frames_shown in *. simpl. by rewrite IH.
Qed.

Lemma pass_events_app (d : float) (xs ys : list Image) :
  pass_events d (xs ++ ys) = pass_events d xs ++ pass_events d ys.
Proof. apply flat_map_app. Qed.

(** Entering [run_animal]: the reading is taken, the title set, the delay
    fixed and the iterator created on the list selected right now. *)
Lemma enter_pass (s : App) :
  loop s = AtTop ->
  let cpu := cpu_percent E (cpu_samples (world s)) in
  loop (loop_step E s)
    = InFor (running_animal_icons (self s)) 0 (sleep_duration cpu) /\
  trace (world (loop_step E s))
    = trace (world s) ++ [SetTitle (TitleRun cpu)] /\
  running_animal (self (loop_step E s)) = running_animal (self s) /\
  running_animal_icons (self (loop_step E s)) = running_animal_icons (self s).
Proof. intros Htop. unfold loop_step. rewrite Htop. done. Qed.

(** One turn of the [for] loop: sleep, then show the next frame. *)
Lemma for_turn (s : App) (icons : list Image) (i : nat) (d : float) (img : Image) :
  loop s = InFor icons i d ->
  icons !! i = Some img ->
  loop_step E s
    = {| self := set_icon img (self s);
         loop := InFor icons (S i) d;
         world :=
           {| trace := trace (world s) ++ [Sleep d; SetIcon img];
              cpu_samples := cpu_samples (world s);
              settings_ini := settings_ini (world s);
              config := config (world s) |} |}.
Proof. intros Hloop Himg. unfold loop_step. by rewrite Hloop, Himg. Qed.

(** [n] turns of the [for] loop that stay inside the list. *)
Lemma for_turns (n : nat) (s : App) (icons : list Image) (i : nat) (d : float) :
  loop s = InFor icons i d ->
  i + n <= length icons ->
  loop (loop_steps E n s) = InFor icons (i + n) d /\
  trace (world (loop_steps E n s))
    = trace (world s) ++ pass_events d (take n (drop i icons)) /\
  running_animal (self (loop_steps E n s)) = running_animal (self s) /\
  running_animal_icons (self (loop_steps E n s)) = running_animal_icons (self s).
Proof.
  intros Hloop. induction n as [| n IH]; intros Hn.
  - rewrite Nat.add_0_r. simpl. by rewrite app_nil_r.
  - destruct IH as (IHloop & IHtrace & IHname & IHicons); [lia |].
    destruct (lookup_lt_is_Some_2 icons (i + n)) as [img Himg]; [lia |].
    rewrite loop_steps_S, (for_turn _ icons (i + n) d img IHloop Himg).
    simpl.
    rewrite IHtrace, IHname, IHicons, Nat.add_succ_r.
    rewrite (take_S_r _ _ img) by (by rewrite lookup_drop).
    rewrite pass_events_app, <- app_assoc. done.
Qed.

(** The turn on an exhausted iterator ends [run_animal]. *)
Lemma for_exhausted (s : App) (icons : list Image) (i : nat) (d : float) :
  loop s = InFor icons i d ->
  length icons <= i ->
  loop_step E s = {| self := self s; loop := AtTop; world := world s |}.
Proof.
  intros Hloop Hi. unfold loop_step. rewrite Hloop.
  by rewrite (lookup_ge_None_2 icons i).
Qed.

(** What is left of a pass, from any position, up to the return to the
    top of [while True]. *)
Lemma finish_pass (s : App) (icons : list Image) (i : nat) (d : float) :
  loop s = InFor icons i d ->
  let s' := loop_steps E (length icons - i + 1) s in
  loop s' = AtTop /\
  trace (world s') = trace (world s) ++ pass_events d (drop i icons) /\
  running_animal (self s') = running_animal (self s) /\
  running_animal_icons (self s') = running_animal_icons (self s).
Proof.
  intros Hloop s'. subst s'.
  rewrite loop_steps_after, (loop_steps_S 0). simpl loop_steps at 1 3 5 7.
  destruct (decide (i <= length icons)) as [Hi | Hi].
  - destruct (for_turns (length icons - i) s icons i d Hloop)
      as (Hl & Ht & Hn & Hc); [lia |].
    rewrite (for_exhausted _ icons (i + (length icons - i)) d Hl) by lia.
    simpl. rewrite Ht, Hn, Hc.
    rewrite take_ge by (rewrite length_drop; lia). done.
  - replace (length icons - i) with 0 by lia. simpl.
    rewrite (for_exhausted _ icons i d Hloop) by lia. simpl.
    rewrite drop_ge by lia. simpl. by rewrite app_nil_r.
Qed.

End Coroutine.

Section Passes.

Context (E : Env).

(** A whole pass, from the top of [while True] back to it. *)
Lemma full_pass (s : App) :
  loop s = AtTop ->
  let icons := running_animal_icons (self s) in
  let cpu := cpu_percent E (cpu_samples (world s)) in
  let s' := loop_steps E (length icons + 2) s in
  loop s' = AtTop /\
  trace (world s')
    = trace (world s)
        ++ SetTitle (TitleRun cpu) :: pass_events (sleep_duration cpu) icons /\
  running_animal (self s') = running_animal (self s) /\
  running_animal_icons (self s') = running_animal_icons (self s).
Proof.
  intros Htop icons cpu s'. subst s'.
  destruct (enter_pass E s Htop) as (Hl & Ht & Hn & Hc).
  replace (length icons + 2) with (1 + (length icons - 0 + 1)) by lia.
  rewrite loop_steps_after. change (loop_steps E 1 s) with (loop_step E s).
  destruct (finish_pass E (loop_step E s) icons 0 (sleep_duration cpu) Hl)
    as (Hl' & Ht' & Hn' & Hc').
  rewrite Hl', Ht', Hn', Hc', Ht, Hn, Hc, <- app_assoc. done.
Qed.

(** [c] passes in a row show the selected list [c] times over. *)
Lemma passes (c : nat) (s : App) :
  loop s = AtTop ->
  let icons := running_animal_icons (self s) in
  let s' := loop_steps E (c * (length icons + 2)) s in
  loop s' = AtTop /\
  (exists events,
      trace (world s') = trace (world s) ++ events /\
      frames_shown events = concat (replicate c icons)) /\
  running_animal (self s') = running_animal (self s) /\
  running_animal_icons (self s') = running_animal_icons (self s).
Proof.
  intros Htop icons. induction c as [| c IH]; simpl.
  - split; [done |]. split; [| done]. exists []. by rewrite app_nil_r.
  - destruct IH as (Hl & (events & Ht & Hf) & Hn & Hc).
    rewrite (Nat.add_comm (length icons + 2)), loop_steps_after.
    set (s1 := loop_steps E (c * (length icons + 2)) s) in *.
    destruct (full_pass s1 Hl) as (Hl' & Ht' & Hn' & Hc').
    rewrite Hc in Hl', Ht', Hn', Hc'. fold icons in Hl', Ht', Hn', Hc'.
    split; [done |]. split; [| split; [by rewrite Hn' | exact Hc']].
    eexists. split.
    + rewrite Ht', Ht, <- app_assoc. reflexivity.
    + rewrite frames_shown_app, Hf. 
      change (frames_shown (?e :: ?l)) with (frames_shown l).
      rewrite frames_shown_pass.
      clear. induction c as [| c IH]; simpl; [by rewrite app_nil_r |].
      by rewrite <- app_assoc, IH.
Qed.

Lemma shown_since_events (s s' : App) (events : list Event) :
  trace (world s') = trace (world s) ++ events ->
  shown_since s s' = frames_shown events.
Proof. intros H. unfold shown_since. by rewrite H, drop_app_length. Qed.

(** The trace only grows. *)
Lemma loop_step_extends (s : App) :
  trace (world s) `prefix_of` trace (world (loop_step E s)).
Proof.
  unfold loop_step. destruct (loop s) as [| icons i d]; simpl.
  - by eexists.
  - destruct (icons !! i); simpl; [by eexists | done].
Qed.

Lemma loop_steps_extend (n m : nat) (s : App) :
  n <= m ->
  trace (world (loop_steps E n s)) `prefix_of` trace (world (loop_steps E m s)).
Proof.
  induction 1 as [| m _ IH]; [done |].
  etrans; [exact IH |]. rewrite loop_steps_S. apply loop_step_extends.
Qed.

Lemma frames_shown_prefix (xs ys : list Event) :
  xs `prefix_of` ys -> frames_shown xs `prefix_of` frames_shown ys.
Proof. intros [k ->]. rewrite frames_shown_app. by eexists. Qed.

End Passes.

(** ** Switching the variant *)

Lemma change_animal_step (E : Env) (name key : string) (new : list Image) (s : App) :
  RUNNING_ANIMALS_MAPPING !! key = Some new ->
  menu_step E (ChangeRunningAnimal name key) s
    = (Returns tt,
       {| self := change_running_animal name new (self s);
          loop := loop s; world := world s |}).
Proof. intros Hkey. unfold menu_step. by rewrite Hkey. Qed.

(** C3: a pass over the previous variant's list is under way, [k] of its
    frames have been shown, and the menu switches the variant.  The frames
    shown from then on are the rest of the previous list, at most its length
    many, followed by the new list from its first frame, pass after pass;
    at every moment what has been shown is a prefix of that sequence. *)
Theorem switch_mid_cycle
    (E : Env) (s0 : App) (k c : nat) (name key : string) (new : list Image) :
  loop s0 = AtTop ->
  k <= length (running_animal_icons (self s0)) ->
  RUNNING_ANIMALS_MAPPING !! key = Some new ->
  let old := running_animal_icons (self s0) in
  let s1 := loop_steps E (1 + k) s0 in
  let s2 := (menu_step E (ChangeRunningAnimal name key) s1).2 in
  let rest := length old - k in
  running_animal (self s2) = name /\
  running_animal_icons (self s2) = new /\
  rest <= length old /\
  shown_since s1 (loop_steps E (rest + 1 + c * (length new + 2)) s2)
    = drop k old ++ concat (replicate c new) /\
  (forall n,
      shown_since s1 (loop_steps E n s2)
        `prefix_of` drop k old ++ concat (replicate n new)).
Proof.
  intros Htop Hk Hkey old s1 s2 rest.
  destruct (enter_pass E s0 Htop) as (Hl0 & _ & _ & Hc0).
  assert (Hl1 : exists d, loop s1 = InFor old k d).
  { eexists. subst s1. rewrite loop_steps_after.
    change (loop_steps E 1 s0) with (loop_step E s0).
    by destruct (for_turns E k _ _ 0 _ Hl0) as (-> & _). }
  destruct Hl1 as [d Hl1].
  subst s2. rewrite (change_animal_step E name key new s1 Hkey). simpl.
  set (s2 := {| self := change_running_animal name new (self s1);
                loop := loop s1; world := world s1 |}).
  assert (Hl2 : loop s2 = InFor old k d) by done.
  split; [done |]. split; [done |]. split; [lia |].
  assert (Hat : forall m,
    shown_since s1 (loop_steps E (rest + 1 + m * (length new + 2)) s2)
      = drop k old ++ concat (replicate m new)).
  { intros m. rewrite loop_steps_after.
    destruct (finish_pass E s2 old k d Hl2) as (Hl3 & Ht3 & _ & Hc3).
    fold rest in Hl3, Ht3, Hc3.
    set (s3 := loop_steps E (rest + 1) s2) in *.
    destruct (passes E m s3 Hl3) as (_ & (events & Ht4 & Hf4) & _).
    rewrite Hc3 in Ht4, Hf4. simpl in Ht4, Hf4.
    rewrite (shown_since_events s1 _ (pass_events d (drop k old) ++ events)).
    - by rewrite frames_shown_app, frames_shown_pass, Hf4.
    - rewrite Ht4, Ht3, <- app_assoc. done. }
  split; [apply Hat |].
  intros n. rewrite <- Hat.
  assert (Hle : n <= rest + 1 + n * (length new + 2)) by nia.
  destruct (loop_steps_extend E 0 n s2 (Nat.le_0_l n)) as [shown Hshown].
  destruct (loop_steps_extend E _ _ s2 Hle) as [later Hlater].
  rewrite Hshown in Hlater. simpl in Hshown, Hlater.
  rewrite (shown_since_events s1 _ shown Hshown).
  rewrite (shown_since_events s1 _ (shown ++ later))
    by (by rewrite Hlater, app_assoc).
  rewrite frames_shown_app. by eexists.
Qed.

(** C2, as stated, fails: on the sample application, entering a pass on the
    white cat and then choosing the black cat leaves the iterator on the
    white cat's list, and the next turn shows a white frame although the
    black list is the selected one. *)
Lemma switch_mid_pass_keeps_old_list :
  ~ reread_every_turn mac demo_app /\
  let s := run mac [LoopTick; LoopTick;
                    MenuTick (ChangeRunningAnimal "black_cat" "black_cat");
                    LoopTick] demo_app in
  running_animal (self s) = "black_cat" /\
  icon (self s) = Image_open "./res/cat/white_cat_1.png" /\
  icon (self s) ∉ running_animal_icons (self s).
Proof.
  split.
  - intros H.
    specialize (H [LoopTick; MenuTick (ChangeRunningAnimal "black_cat" "black_cat")]
                  _ _ _ eq_refl).
    vm_compute in H. discriminate H.
  - vm_compute. split; [reflexivity |]. split; [reflexivity |].
    intros Hin. repeat (apply elem_of_cons in Hin as [Hin | Hin]; [discriminate Hin |]).
    by apply elem_of_nil in Hin.
Qed.

(** C2, amended.  The frame list is looked up once, when a pass starts: a
    switch during the pass leaves the iterator on the list it was created
    on, the remaining turns of the pass show that list, and the pass that
    follows, at most one outer cycle later, starts on the new list at
    position 0. *)
Theorem switch_waits_for_next_pass
    (E : Env) (s : App) (icons : list Image) (i n : nat) (d : float)
    (name key : string) (new : list Image) :
  loop s = InFor icons i d ->
  RUNNING_ANIMALS_MAPPING !! key = Some new ->
  i + n <= length icons ->
  let s' := (menu_step E (ChangeRunningAnimal name key) s).2 in
  running_animal_icons (self s') = new /\
  loop s' = InFor icons i d /\
  loop (loop_steps E n s') = InFor icons (i + n) d /\
  shown_since s' (loop_steps E n s') = take n (drop i icons) /\
  exists d', loop (loop_steps E (length icons - i + 2) s') = InFor new 0 d'.
Proof.
  intros Hloop Hkey Hn s'. subst s'.
  rewrite (change_animal_step E name key new s Hkey). simpl.
  set (s' := {| self := change_running_animal name new (self s);
                loop := loop s; world := world s |}).
  assert (Hl : loop s' = InFor icons i d) by done.
  split; [done |]. split; [done |].
  destruct (for_turns E n s' icons i d Hl Hn) as (Hl1 & Ht1 & _).
  split; [done |].
  split; [by rewrite (shown_since_events _ _ _ Ht1), frames_shown_pass |].
  destruct (finish_pass E s' icons i d Hl) as (Hl2 & _ & _ & Hc2).
  replace (length icons - i + 2) with ((length icons - i + 1) + 1) by lia.
  rewrite loop_steps_after. change (loop_steps E 1 ?x) with (loop_step E x).
  destruct (enter_pass E _ Hl2) as (Hl3 & _).
  rewrite Hl3, Hc2. by eexists.
Qed.

(** C8: the six variants hold 5, 5, 14, 14, 10 and 10 frames, and a pass
    that starts on a variant's list shows exactly that list, first frame
    first, before the loop is back at its top. *)
Theorem frames_loaded_and_shown_in_order
    (E : Env) (s : App) (key : string) (icons : list Image) :
  RUNNING_ANIMALS_MAPPING !! key = Some icons ->
  loop s = AtTop ->
  running_animal_icons (self s) = icons ->
  (length <$> RUNNING_ANIMALS_MAPPING !! "white_cat" = Some 5 /\
   length <$> RUNNING_ANIMALS_MAPPING !! "black_cat" = Some 5 /\
   length <$> RUNNING_ANIMALS_MAPPING !! "white_horse" = Some 14 /\
   length <$> RUNNING_ANIMALS_MAPPING !! "black_horse" = Some 14 /\
   length <$> RUNNING_ANIMALS_MAPPING !! "white_parrot" = Some 10 /\
   length <$> RUNNING_ANIMALS_MAPPING !! "black_parrot" = Some 10) /\
  key ∈ variant_keys /\
  shown_since s (loop_steps E (length icons + 2) s) = icons /\
  loop (loop_steps E (length icons + 2) s) = AtTop.
Proof.
  intros Hkey Htop Hicons.
  split; [vm_compute; done |].
  split.
  { apply elem_of_dom_2 in Hkey. revert Hkey.
    unfold RUNNING_ANIMALS_MAPPING. rewrite dom_list_to_map_L. simpl.
    set_solver. }
  destruct (full_pass E s Htop) as (Hl & Ht & _). rewrite Hicons in Hl, Ht.
  split; [| done].
  rewrite (shown_since_events _ _ _ Ht).
  change (frames_shown (?e :: ?l)) with (frames_shown l).
  apply frames_shown_pass.
Qed.

(** ** The launcher *)

Ltac run_monad :=
  cbv [mbind M_bind mret M_ret global subscript raise hang emit
       Popen_call proc_wait]; simpl.

Section Launcher.

Context (E : Env).

(** The table bound on this platform, and what it holds for the name. *)
Lemma app_path_of_inv (app_name : string) (p : option string) :
  app_path_of E app_name = Some p ->
  exists table,
    (if IS_WINDOWS E then WINDOWS_APP_PATH E else MAC_APP_PATH E) = Some table /\
    table !! app_name = Some p.
Proof.
  unfold app_path_of. intros H.
  destruct (if IS_WINDOWS E then WINDOWS_APP_PATH E else MAC_APP_PATH E)
    as [table |]; [| done].
  by exists table.
Qed.

(** Whatever it does, the launcher only appends to the trace. *)
Lemma launch_app_appends (app_name : string) (w : World) :
  exists events, (launch_app E app_name w).2 = with_events w events.
Proof.
  destruct w as [t n f c]. unfold launch_app, WINDOWS_APP_PATH, MAC_APP_PATH.
  run_monad. unfold with_events. simpl.
  repeat case_match; simplify_eq/=.
  all: try (by exists []; rewrite app_nil_r).
  all: try (eexists; by rewrite <- ?app_assoc).

Qed.

Lemma with_events_twice (w : World) (xs ys : list Event) :
  with_events (with_events w xs) ys = with_events w (xs ++ ys).
Proof. unfold with_events. simpl. by rewrite app_assoc. Qed.

(** C5, amended.  Off Windows, with a path resolved, the launcher starts
    [open -a path] as a child of its own and then waits for it: it
    returns only when the child has exited, logging one error if the
    return code is not 0; it blocks for as long as the child runs; and
    it raises if the child cannot be started.  Nothing about the child is
    kept afterwards. *)
Theorem launch_waits_for_child (app_name path : string) (w : World) :
  IS_WINDOWS E = false ->
  app_path_of E app_name = Some (Some path) ->
  launch_app E app_name w
    = match spawn E ["open"; "-a"; path] with
      | SpawnFails =>
          (Raises OSError, with_events w [Popen ["open"; "-a"; path]])
      | ChildRuns =>
          (Blocks, with_events w [Popen ["open"; "-a"; path]; ProcWait])
      | ChildExits return_code =>
          (Returns tt,
           with_events w
             ([Popen ["open"; "-a"; path]; ProcWait]
                ++ if bool_decide (return_code ≠ 0%Z) then
                     [LogError ("Application " +:+ path
                                +:+ " failed to start with return code "
                                +:+ str_int return_code +:+ ".")]
                   else []))
      end.
Proof.
  intros Hmac H. apply app_path_of_inv in H as (table & Htable & Hname).
  unfold launch_app. rewrite Hmac in *. rewrite Htable. run_monad.
  rewrite Hname. simpl.
  destruct (spawn E ["open"; "-a"; path]) as [| return_code |]; simpl.
  - reflexivity.
  - case_bool_decide; simpl.
    + unfold with_events. simpl. by rewrite <- !app_assoc.
    + unfold with_events. simpl. by rewrite <- !app_assoc.
  - unfold with_events. simpl. by rewrite <- !app_assoc.
Qed.

(** C10: on Windows, when the child exits with a code other than 0, the
    branch that should log reads the name [MAC_APP_PATH], which is not
    bound there: the call raises NameError and logs nothing. *)
Theorem windows_launch_failure_raises
    (app_name path : string) (return_code : Z) (w : World) :
  IS_WINDOWS E = true ->
  app_path_of E app_name = Some (Some path) ->
  spawn E ["open"; "-a"; path] = ChildExits return_code ->
  return_code ≠ 0%Z ->
  launch_app E app_name w
    = (Raises (NameError "MAC_APP_PATH"),
       with_events w [Popen ["open"; "-a"; path]; ProcWait]).
Proof.
  intros Hwin H Hspawn Hcode.
  apply app_path_of_inv in H as (table & Htable & Hname).
  unfold launch_app. rewrite Hwin in *. rewrite Htable. run_monad.
  rewrite Hname. simpl. rewrite Hspawn. simpl.
  rewrite bool_decide_true by done.
  unfold MAC_APP_PATH. rewrite Hwin. simpl.
  unfold with_events. simpl. by rewrite <- !app_assoc.
Qed.

(** The coroutine does not look at the trace. *)
Lemma loop_step_blind (s s' : App) :
  same_but_trace s s' ->
  same_but_trace (loop_step E s) (loop_step E s') /\
  exists events,
    trace (world (loop_step E s)) = trace (world s) ++ events /\
    trace (world (loop_step E s')) = trace (world s') ++ events.
Proof.
  intros (Hself & Hloop & Hcpu & Hini & Hcfg).
  unfold loop_step, same_but_trace. rewrite Hself, Hloop, Hcpu.
  destruct (loop s) as [| icons i d]; simpl.
  - split; [by rewrite Hini, Hcfg | by eexists].
  - destruct (icons !! i); simpl.
    + split; [by rewrite Hini, Hcfg | by eexists].
    + split; [done |]. exists []. by rewrite !app_nil_r.
Qed.

Lemma loop_steps_blind (n : nat) (s s' : App) :
  same_but_trace s s' ->
  same_but_trace (loop_steps E n s) (loop_steps E n s') /\
  exists events,
    trace (world (loop_steps E n s)) = trace (world s) ++ events /\
    trace (world (loop_steps E n s')) = trace (world s') ++ events.
Proof.
  intros Hsame. induction n as [| n (IH & events & Ht & Ht')].
  - split; [done |]. exists []. by rewrite !app_nil_r.
  - rewrite !loop_steps_S.
    destruct (loop_step_blind _ _ IH) as (Hnext & more & Hm & Hm').
    split; [done |]. exists (events ++ more).
    by rewrite Hm, Hm', Ht, Ht', !app_assoc.
Qed.

(** C4: on a name whose path resolved to None the callback returns
    normally, adds one error line to the log and nothing else to the
    trace (no [Popen]), and leaves the object and the coroutine as they
    were; the coroutine goes on exactly as it would have. *)
Theorem launch_without_path_only_logs (app_name : string) (s : App) (n : nat) :
  app_path_of E app_name = Some None ->
  let r := menu_step E (LaunchApp app_name) s in
  r.1 = Returns tt /\
  world r.2
    = with_events (world s)
        [LogError ("Application name " +:+ dquote +:+ app_name +:+ dquote
                   +:+ " is called, but could not find path")] /\
  self r.2 = self s /\
  loop r.2 = loop s /\
  self (loop_steps E n r.2) = self (loop_steps E n s) /\
  loop (loop_steps E n r.2) = loop (loop_steps E n s) /\
  shown_since r.2 (loop_steps E n r.2) = shown_since s (loop_steps E n s).
Proof.
  intros H r. apply app_path_of_inv in H as (table & Htable & Hname).
  assert (Hlaunch : launch_app E app_name (world s)
    = (Returns tt,
       with_events (world s)
         [LogError ("Application name " +:+ dquote +:+ app_name +:+ dquote
                    +:+ " is called, but could not find path")])).
  { unfold launch_app. destruct (IS_WINDOWS E); rewrite Htable; run_monad;
      rewrite Hname; reflexivity. }
  subst r. unfold menu_step. rewrite Hlaunch. simpl.
  split; [done |]. split; [done |]. split; [done |]. split; [done |].
  match goal with |- context [loop_steps E n ?x] => set (s' := x) end.
  assert (Hsame : same_but_trace s s') by done.
  destruct (loop_steps_blind n s s' Hsame)
    as ((Hself & Hloop & _) & events & Ht & Ht').
  split; [done |]. split; [done |].
  by rewrite (shown_since_events _ _ _ Ht), (shown_since_events _ _ _ Ht').
Qed.

End Launcher.

(** C5, as stated, fails: on the sample platform the launcher calls
    [proc.wait()] on the child it spawned, and where the child never exits
    the call never returns. *)
Lemma launcher_waits_on_mac :
  ~ fire_and_forget mac "wechat" (world demo_app) /\
  (launch_app mac "wechat" (world demo_app)).2
    = with_events (world demo_app)
        [Popen ["open"; "-a"; "/Applications/WeChat.app"]; ProcWait] /\
  (launch_app stuck_mac "wechat" (world demo_app)).1 = Blocks.
Proof.
  split; [| split; vm_compute; reflexivity].
  intros H. apply H. vm_compute. repeat constructor.
Qed.

(** ** The frame table *)

Lemma mapping_keys (key : string) (icons : list Image) :
  RUNNING_ANIMALS_MAPPING !! key = Some icons -> key ∈ variant_keys.
Proof.
  intros Hkey. apply elem_of_dom_2 in Hkey. revert Hkey.
  unfold RUNNING_ANIMALS_MAPPING. rewrite dom_list_to_map_L. simpl.
  set_solver.
Qed.

Lemma mapping_unknown (key : string) :
  key ∉ variant_keys -> RUNNING_ANIMALS_MAPPING !! key = None.
Proof.
  intros Hkey. apply not_elem_of_list_to_map_1. exact Hkey.
Qed.

Lemma mapping_known (key : string) :
  key ∈ variant_keys ->
  exists icons first,
    RUNNING_ANIMALS_MAPPING !! key = Some icons /\ icons !! 0 = Some first.
Proof.
  unfold variant_keys. intros Hkey.
  repeat (apply elem_of_cons in Hkey as [-> | Hkey];
          [eexists; eexists; split; vm_compute; reflexivity |]).
  by apply elem_of_nil in Hkey.
Qed.

Lemma mapping_first (key : string) (icons : list Image) :
  RUNNING_ANIMALS_MAPPING !! key = Some icons ->
  exists first, icons !! 0 = Some first.
Proof.
  intros Hkey.
  destruct (mapping_known key (mapping_keys key icons Hkey))
    as (icons' & first & Hkey' & Hfirst).
  exists first. congruence.
Qed.

(** ** Start-up *)

(** Reading a file into a parser that holds nothing yields the file. *)
Lemma read_into_empty (c : Config) :
  union_with (fun new old => Some (new ∪ old)) c ∅ = c.
Proof. apply (right_id ∅ (union_with _)). Qed.

Section Startup.

Context (E : Env).

Lemma settings_entry_file (f : ini_file) (v : string) :
  settings_entry f = Some v ->
  exists c opts,
    f = FileIni c /\ c !! "animal" = Some opts /\ opts !! "run_animal" = Some v.
Proof.
  destruct f as [| | c]; [done | done |]. simpl. intros H.
  destruct (c !! "animal") as [opts |] eqn:Hopts; [| done].
  by exists c, opts.
Qed.

(** No entry: [config.read] or [config.get] raises. *)
Lemma boot_missing (f : ini_file) :
  settings_entry f = None ->
  exists e, boot E f = Raises e /\
    (e = ParsingError \/ e = NoSectionError "animal"
     \/ e = NoOptionError "run_animal" "animal").
Proof.
  unfold boot, main, settings_entry. destruct f as [| | c]; intros H.
  - eexists. split; [reflexivity | auto].
  - eexists. split; [reflexivity | auto].
  - run_monad. cbv [new_config config_read config_get]. simpl.
    rewrite read_into_empty.
    destruct (c !! "animal") as [opts |]; simpl in *.
    + rewrite H. eexists. split; [reflexivity | auto].
    + eexists. split; [reflexivity | auto].
Qed.

(** An entry that is no key of the table: the subscript in [__init__]
    raises. *)
Lemma boot_unknown (f : ini_file) (v : string) :
  settings_entry f = Some v ->
  RUNNING_ANIMALS_MAPPING !! v = None ->
  boot E f = Raises (KeyError v).
Proof.
  intros (c & opts & -> & Hopts & Hv)%settings_entry_file Hnone.
  unfold boot, main, MiaCat_init. run_monad.
  cbv [new_config config_read config_get]. simpl.
  rewrite read_into_empty, Hopts, Hv, Hnone. reflexivity.
Qed.

(** An entry that is a key: the tray starts on its first frame, unless
    another instance is alive. *)
Lemma boot_known (f : ini_file) (v : string) (icons : list Image) :
  settings_entry f = Some v ->
  RUNNING_ANIMALS_MAPPING !! v = Some icons ->
  if already_running E then boot E f = Returns None
  else
    exists s,
      boot E f = Returns (Some s) /\
      running_animal (self s) = v /\
      running_animal_icons (self s) = icons /\
      icons !! 0 = Some (icon (self s)) /\
      even_loop (self s) = true /\
      loop s = AtTop /\
      settings_ini (world s) = f /\
      is_Some (config (world s) !! "animal").
Proof.
  intros (c & opts & -> & Hopts & Hv)%settings_entry_file Hsome.
  destruct (mapping_first v icons Hsome) as [first Hfirst].
  unfold boot, main, MiaCat_init, start_mia_cat, is_app_running, index.
  run_monad. cbv [new_config config_read config_get get_cpu_percent]. simpl.
  rewrite read_into_empty, Hopts, Hv, Hsome, Hfirst. simpl.
  destruct (IS_WINDOWS E), (already_running E); simpl; try reflexivity.
  all: eexists; split; [reflexivity |]; simpl; by rewrite ?Hopts.
Qed.

(** What a successful start tells about the file and the state. *)
Lemma boot_inv (f : ini_file) (s : App) :
  boot E f = Returns (Some s) ->
  settings_entry f = Some (running_animal (self s)) /\
  RUNNING_ANIMALS_MAPPING !! running_animal (self s)
    = Some (running_animal_icons (self s)) /\
  running_animal_icons (self s) !! 0 = Some (icon (self s)) /\
  even_loop (self s) = true /\
  loop s = AtTop /\
  is_Some (config (world s) !! "animal").
Proof.
  intros Hboot.
  destruct (settings_entry f) as [v |] eqn:Hentry.
  - destruct (RUNNING_ANIMALS_MAPPING !! v) as [icons |] eqn:Hkey.
    + pose proof (boot_known f v icons Hentry Hkey) as H.
      destruct (already_running E); [congruence |].
      destruct H as (s' & Hs' & <- & <- & ? & ? & ? & ? & ?).
      assert (s' = s) as -> by congruence. done.
    + rewrite (boot_unknown f v Hentry Hkey) in Hboot. discriminate.
  - destruct (boot_missing f Hentry) as (e & He & _). congruence.
Qed.

End Startup.

(** C7: with no [run_animal] entry to read, or with an entry that is none
    of the six keys, start-up ends in an exception nothing catches: from
    the parser when the entry is missing, KeyError on the entry itself
    when it is unknown.  No default takes its place. *)
Theorem bad_settings_crash (E : Env) (f : ini_file) :
  (settings_entry f = None \/
   exists v, settings_entry f = Some v /\ v ∉ variant_keys) ->
  exists e,
    boot E f = Raises e /\
    match settings_entry f with
    | None =>
        e = ParsingError \/ e = NoSectionError "animal"
        \/ e = NoOptionError "run_animal" "animal"
    | Some v => e = KeyError v
    end.
Proof.
  intros [Hnone | (v & Hv & Hunknown)].
  - destruct (boot_missing E f Hnone) as (e & He & Hkind).
    exists e. by rewrite Hnone.
  - exists (KeyError v). rewrite Hv. split; [| done].
    apply boot_unknown; [done |]. by apply mapping_unknown.
Qed.

(** ** What the callbacks keep *)

Lemma menu_callback_cases (a : Action) :
  a ∈ menu_callbacks make_menu ->
  (exists key, key ∈ variant_keys /\ a = ChangeRunningAnimal key key) \/
  (exists app_name, a = LaunchApp app_name) \/
  a = StopMiaCat.
Proof.
  intros Ha. vm_compute in Ha.
  repeat (apply elem_of_cons in Ha as [-> | Ha];
          [first [ left; eexists; split; [| reflexivity]; set_solver
                 | right; left; by eexists
                 | right; right; reflexivity ] |]).
  by apply elem_of_nil in Ha.
Qed.

Section Invariants.

Context (E : Env).

(** Exit, on a started application whose parser has the section. *)
Lemma stop_mia_cat_writes (self : MiaCat) (w : World) (opts : gmap string string) :
  even_loop self = true ->
  config w !! "animal" = Some opts ->
  exists w',
    stop_mia_cat E self w = (Returns tt, w') /\
    config w' = <["animal" := <["run_animal" := running_animal self]> opts]> (config w) /\
    settings_ini w' = FileIni (config w').
Proof.
  intros Hloop Hopts. unfold stop_mia_cat. rewrite Hloop. run_monad.
  cbv [config_set config_write]. simpl. rewrite Hopts. simpl.
  destruct (IS_WINDOWS E); simpl; by eexists.
Qed.

Lemma stop_mia_cat_section (self : MiaCat) (w : World) :
  is_Some (config w !! "animal") ->
  is_Some (config (stop_mia_cat E self w).2 !! "animal").
Proof.
  intros [opts Hopts]. unfold stop_mia_cat.
  destruct (even_loop self); run_monad; [| by rewrite Hopts].
  cbv [config_set config_write]. simpl. rewrite Hopts. simpl.
  destruct (IS_WINDOWS E); simpl; by rewrite lookup_insert_eq.
Qed.

Lemma loop_step_icons_match (s : App) :
  icons_match s -> icons_match (loop_step E s).
Proof.
  unfold icons_match, loop_step. intros H.
  destruct (loop s) as [| icons i d]; simpl; [done |].
  by destruct (icons !! i).
Qed.

Lemma menu_step_icons_match (a : Action) (s : App) :
  a ∈ menu_callbacks make_menu ->
  icons_match s -> icons_match (menu_step E a s).2.
Proof.
  intros Ha H.
  destruct (menu_callback_cases a Ha) as [(key & Hkey & ->) | [[app ->] | ->]];
    [| done | done].
  destruct (mapping_known key Hkey) as (icons & first & Hicons & _).
  unfold menu_step. by rewrite Hicons.
Qed.

Lemma loop_step_consistent (s : App) :
  consistent s -> consistent (loop_step E s).
Proof.
  intros [H1 H2 H3]. split; [by apply loop_step_icons_match | |].
  - unfold loop_step. destruct (loop s) as [| icons i d]; simpl; [done |].
    by destruct (icons !! i).
  - unfold loop_step. destruct (loop s) as [| icons i d]; simpl; [done |].
    by destruct (icons !! i).
Qed.

Lemma menu_step_consistent (a : Action) (s : App) :
  a ∈ menu_callbacks make_menu ->
  consistent s -> consistent (menu_step E a s).2.
Proof.
  intros Ha [H1 H2 H3]. split; [by apply menu_step_icons_match | |].
  - destruct a as [name key | app |]; simpl; [| done | done].
    by destruct (RUNNING_ANIMALS_MAPPING !! key).
  - destruct a as [name key | app |]; simpl.
    + by destruct (RUNNING_ANIMALS_MAPPING !! key).
    + destruct (launch_app_appends E app (world s)) as [events ->]. done.
    + by apply stop_mia_cat_section.
Qed.

#[local] Arguments menu_step : simpl never.

Lemma run_icons_match (ticks : list Tick) (s : App) :
  Forall menu_tick ticks -> icons_match s -> icons_match (run E ticks s).
Proof.
  intros Hticks. revert s.
  induction Hticks as [| t ticks Ht _ IH]; intros s Hs; [done |].
  destruct t as [| a]; simpl.
  - apply IH. by apply loop_step_icons_match.
  - pose proof (menu_step_icons_match a s Ht Hs) as Hs'.
    destruct (goes_on a (menu_step E a s).1); auto.
Qed.

Lemma run_consistent (ticks : list Tick) (s : App) :
  Forall menu_tick ticks -> consistent s -> consistent (run E ticks s).
Proof.
  intros Hticks. revert s.
  induction Hticks as [| t ticks Ht _ IH]; intros s Hs; [done |].
  destruct t as [| a]; simpl.
  - apply IH. by apply loop_step_consistent.
  - pose proof (menu_step_consistent a s Ht Hs) as Hs'.
    destruct (goes_on a (menu_step E a s).1); auto.
Qed.

(** C9: built on one of the six keys, the object holds that key's frame
    list, and the stored name and list still agree after any schedule of
    menu callbacks and coroutine steps. *)
Theorem icons_follow_animal
    (key : string) (w : World) (lp : Loop) (ticks : list Tick) :
  key ∈ variant_keys ->
  Forall menu_tick ticks ->
  exists mia_cat w',
    MiaCat_init E key w = (Returns mia_cat, w') /\
    icons_match {| self := mia_cat; loop := lp; world := w' |} /\
    icons_match (run E ticks {| self := mia_cat; loop := lp; world := w' |}).
Proof.
  intros Hkey Hticks.
  destruct (mapping_known key Hkey) as (icons & first & Hicons & Hfirst).
  unfold MiaCat_init, index. run_monad. rewrite Hicons, Hfirst. simpl.
  eexists _, _. split; [reflexivity |].
  assert (forall s, running_animal (self s) = key ->
                    running_animal_icons (self s) = icons -> icons_match s)
    as Hmatch by (intros s Hn Hi; unfold icons_match; by rewrite Hn, Hi).
  split; [by apply Hmatch |]. apply run_icons_match; [done |]. by apply Hmatch.
Qed.

(** C6: whatever the tray did since it started, Exit writes the current
    variant name to the settings file, and a start on that file (with no
    other instance alive) builds the application on that variant with
    the variant's first frame as its icon. *)
Theorem settings_round_trip
    (E' : Env) (f : ini_file) (s0 : App) (ticks : list Tick) :
  boot E f = Returns (Some s0) ->
  Forall menu_tick ticks ->
  already_running E' = false ->
  let s := run E ticks s0 in
  exists s_end s' icons,
    menu_step E StopMiaCat s = (Returns tt, s_end) /\
    settings_entry (settings_ini (world s_end))
      = Some (running_animal (self s)) /\
    boot E' (settings_ini (world s_end)) = Returns (Some s') /\
    running_animal (self s') = running_animal (self s) /\
    RUNNING_ANIMALS_MAPPING !! running_animal (self s) = Some icons /\
    icons !! 0 = Some (icon (self s')).
Proof.
  intros Hboot Hticks Hfree s.
  destruct (boot_inv E f s0 Hboot) as (_ & H1 & _ & H2 & _ & H3).
  assert (Hs : consistent s) by (by apply run_consistent).
  destruct Hs as [Hmatch Hloop [opts Hopts]].
  destruct (stop_mia_cat_writes (self s) (world s) opts Hloop Hopts)
    as (w' & Hstop & Hcfg & Hfile).
  assert (Hentry : settings_entry (settings_ini w')
                   = Some (running_animal (self s))).
  { rewrite Hfile, Hcfg. simpl. rewrite lookup_insert_eq. simpl.
    by rewrite lookup_insert_eq. }
  pose proof (boot_known E' _ _ _ Hentry Hmatch) as Hnext.
  rewrite Hfree in Hnext.
  destruct Hnext as (s' & Hs' & Hname & Hicons & Hfirst & _).
  exists {| self := self s; loop := loop s; world := w' |}, s',
         (running_animal_icons (self s)).
  unfold menu_step. rewrite Hstop. simpl. done.
Qed.

End Invariants.

(** ** The theorems at sample inputs *)

Lemma delay_law_witness :
  loop demo_app = AtTop /\
  (0 <= 25)%Q /\ (25 <= 50)%Q /\ (50 <= 100)%Q /\
  (3 <= 7)%nat /\ (7 <= 1000)%nat /\
  loop (loop_step mac demo_app)
    = InFor (running_animal_icons (self demo_app)) 0
            (sleep_duration (cpu_percent mac (cpu_samples (world demo_app)))) /\
  (delay 50 <= delay 25)%Q /\
  (delay 0 == 1 # 10)%Q /\
  (delay 100 == 1 # 110)%Q /\
  (Qabs (delay 100 - (909 # 100000)) < 1 # 100000)%Q /\
  (exists y : Q,
      Q_of_float (sleep_duration (reading 7)) = Some y /\
      (Qabs (y - delay (Z.of_nat 7 # 10))
         <= delay (Z.of_nat 7 # 10) * (1 # 2 ^ 51))%Q) /\
  (delay_at 7 <= delay_at 3)%Q /\
  sleep_duration 0%float = 0.09999999999999999%float /\
  sleep_duration 100%float = 0.00909090909090909%float.
Proof.
  assert (H1 : loop demo_app = AtTop) by reflexivity.
  assert (H2 : (0 <= 25)%Q) by (unfold Qle; simpl; lia).
  assert (H3 : (25 <= 50)%Q) by (unfold Qle; simpl; lia).
  assert (H4 : (50 <= 100)%Q) by (unfold Qle; simpl; lia).
  assert (H5 : (3 <= 7)%nat) by lia.
  assert (H6 : (7 <= 1000)%nat) by lia.
  split; [exact H1 |]. split; [exact H2 |]. split; [exact H3 |].
  split; [exact H4 |]. split; [exact H5 |]. split; [exact H6 |].
  exact (delay_law mac demo_app 25 50 3 7 H1 H2 H3 H4 H5 H6).
Defined.

Lemma switch_waits_for_next_pass_witness :
  let s := loop_step mac demo_app in
  let icons := load_frames "./res/cat/white_cat_" 5 in
  let new := load_frames "./res/cat/black_cat_" 5 in
  let d := sleep_duration (reading 10) in
  loop s = InFor icons 0 d /\
  RUNNING_ANIMALS_MAPPING !! "black_cat" = Some new /\
  0 + 3 <= length icons /\
  let s' := (menu_step mac (ChangeRunningAnimal "black_cat" "black_cat") s).2 in
  running_animal_icons (self s') = new /\
  loop s' = InFor icons 0 d /\
  loop (loop_steps mac 3 s') = InFor icons (0 + 3) d /\
  shown_since s' (loop_steps mac 3 s') = take 3 (drop 0 icons) /\
  exists d', loop (loop_steps mac (length icons - 0 + 2) s') = InFor new 0 d'.
Proof.
  intros s icons new d.
  assert (H1 : loop s = InFor icons 0 d) by reflexivity.
  assert (H2 : RUNNING_ANIMALS_MAPPING !! "black_cat" = Some new)
    by (vm_compute; reflexivity).
  assert (H3 : 0 + 3 <= length icons) by (simpl; lia).
  split; [exact H1 |]. split; [exact H2 |]. split; [exact H3 |].
  exact (switch_waits_for_next_pass mac s icons 0 3 d "black_cat" "black_cat"
           new H1 H2 H3).
Defined.

Lemma switch_mid_cycle_witness :
  let new := load_frames "./res/cat/black_cat_" 5 in
  loop demo_app = AtTop /\
  2 <= length (running_animal_icons (self demo_app)) /\
  RUNNING_ANIMALS_MAPPING !! "black_cat" = Some new /\
  let old := running_animal_icons (self demo_app) in
  let s1 := loop_steps mac (1 + 2) demo_app in
  let s2 := (menu_step mac (ChangeRunningAnimal "black_cat" "black_cat") s1).2 in
  let rest := length old - 2 in
  running_animal (self s2) = "black_cat" /\
  running_animal_icons (self s2) = new /\
  rest <= length old /\
  shown_since s1 (loop_steps mac (rest + 1 + 1 * (length new + 2)) s2)
    = drop 2 old ++ concat (replicate 1 new) /\
  (forall n,
      shown_since s1 (loop_steps mac n s2)
        `prefix_of` drop 2 old ++ concat (replicate n new)).
Proof.
  intros new.
  assert (H1 : loop demo_app = AtTop) by reflexivity.
  assert (H2 : 2 <= length (running_animal_icons (self demo_app)))
    by (simpl; lia).
  assert (H3 : RUNNING_ANIMALS_MAPPING !! "black_cat" = Some new)
    by (vm_compute; reflexivity).
  split; [exact H1 |]. split; [exact H2 |]. split; [exact H3 |].
  exact (switch_mid_cycle mac demo_app 2 1 "black_cat" "black_cat" new H1 H2 H3).
Defined.

Lemma launch_without_path_only_logs_witness :
  app_path_of mac "qq" = Some None /\
  let r := menu_step mac (LaunchApp "qq") demo_app in
  r.1 = Returns tt /\
  world r.2
    = with_events (world demo_app)
        [LogError ("Application name " +:+ dquote +:+ "qq" +:+ dquote
                   +:+ " is called, but could not find path")] /\
  self r.2 = self demo_app /\
  loop r.2 = loop demo_app /\
  self (loop_steps mac 3 r.2) = self (loop_steps mac 3 demo_app) /\
  loop (loop_steps mac 3 r.2) = loop (loop_steps mac 3 demo_app) /\
  shown_since r.2 (loop_steps mac 3 r.2)
    = shown_since demo_app (loop_steps mac 3 demo_app).
Proof.
  assert (H1 : app_path_of mac "qq" = Some None) by (vm_compute; reflexivity).
  split; [exact H1 |].
  exact (launch_without_path_only_logs mac "qq" demo_app 3 H1).
Defined.

Lemma launch_waits_for_child_witness :
  IS_WINDOWS mac = false /\
  app_path_of mac "wechat" = Some (Some "/Applications/WeChat.app") /\
  launch_app mac "wechat" (world demo_app)
    = (Returns tt,
       with_events (world demo_app)
         [Popen ["open"; "-a"; "/Applications/WeChat.app"]; ProcWait]).
Proof.
  assert (H1 : IS_WINDOWS mac = false) by reflexivity.
  assert (H2 : app_path_of mac "wechat" = Some (Some "/Applications/WeChat.app"))
    by (vm_compute; reflexivity).
  split; [exact H1 |]. split; [exact H2 |].
  exact (launch_waits_for_child mac "wechat" "/Applications/WeChat.app"
           (world demo_app) H1 H2).
Defined.

Lemma windows_launch_failure_raises_witness :
  IS_WINDOWS windows = true /\
  app_path_of windows "chrome" = Some (Some "C:/Apps/chrome.exe") /\
  spawn windows ["open"; "-a"; "C:/Apps/chrome.exe"] = ChildExits 1 /\
  (1 <> 0)%Z /\
  launch_app windows "chrome" (world demo_app)
    = (Raises (NameError "MAC_APP_PATH"),
       with_events (world demo_app)
         [Popen ["open"; "-a"; "C:/Apps/chrome.exe"]; ProcWait]).
Proof.
  assert (H1 : IS_WINDOWS windows = true) by reflexivity.
  assert (H2 : app_path_of windows "chrome" = Some (Some "C:/Apps/chrome.exe"))
    by (vm_compute; reflexivity).
  assert (H3 : spawn windows ["open"; "-a"; "C:/Apps/chrome.exe"] = ChildExits 1)
    by reflexivity.
  assert (H4 : (1 <> 0)%Z) by lia.
  split; [exact H1 |]. split; [exact H2 |]. split; [exact H3 |].
  split; [exact H4 |].
  exact (windows_launch_failure_raises windows "chrome" "C:/Apps/chrome.exe" 1
           (world demo_app) H1 H2 H3 H4).
Defined.

Lemma settings_round_trip_witness :
  let ticks := [LoopTick;
                MenuTick (ChangeRunningAnimal "black_horse" "black_horse");
                LoopTick] in
  boot mac (FileIni (settings "white_cat")) = Returns (Some demo_app) /\
  Forall menu_tick ticks /\
  already_running mac = false /\
  let s := run mac ticks demo_app in
  exists s_end s' icons,
    menu_step mac StopMiaCat s = (Returns tt, s_end) /\
    settings_entry (settings_ini (world s_end))
      = Some (running_animal (self s)) /\
    boot mac (settings_ini (world s_end)) = Returns (Some s') /\
    running_animal (self s') = running_animal (self s) /\
    RUNNING_ANIMALS_MAPPING !! running_animal (self s) = Some icons /\
    icons !! 0 = Some (icon (self s')).
Proof.
  intros ticks.
  assert (H1 : boot mac (FileIni (settings "white_cat")) = Returns (Some demo_app))
    by (vm_compute; reflexivity).
  assert (H2 : Forall menu_tick ticks).
  { repeat constructor. }
  assert (H3 : already_running mac = false) by reflexivity.
  split; [exact H1 |]. split; [exact H2 |]. split; [exact H3 |].
  exact (settings_round_trip mac mac (FileIni (settings "white_cat")) demo_app
           ticks H1 H2 H3).
Defined.

Lemma bad_settings_crash_witness :
  (settings_entry (FileIni (settings "tiger")) = None \/
   exists v, settings_entry (FileIni (settings "tiger")) = Some v /\
             v ∉ variant_keys) /\
  exists e,
    boot mac (FileIni (settings "tiger")) = Raises e /\
    match settings_entry (FileIni (settings "tiger")) with
    | None =>
        e = ParsingError \/ e = NoSectionError "animal"
        \/ e = NoOptionError "run_animal" "animal"
    | Some v => e = KeyError v
    end.
Proof.
  assert (H1 : settings_entry (FileIni (settings "tiger")) = None \/
               exists v, settings_entry (FileIni (settings "tiger")) = Some v /\
                         v ∉ variant_keys).
  { right. exists "tiger". split; [vm_compute; reflexivity |].
    apply (bool_decide_unpack _). vm_compute. exact I. }
  split; [exact H1 |].
  exact (bad_settings_crash mac (FileIni (settings "tiger")) H1).
Defined.

Lemma frames_loaded_and_shown_in_order_witness :
  let icons := load_frames "./res/cat/white_cat_" 5 in
  RUNNING_ANIMALS_MAPPING !! "white_cat" = Some icons /\
  loop demo_app = AtTop /\
  running_animal_icons (self demo_app) = icons /\
  (length <$> RUNNING_ANIMALS_MAPPING !! "white_cat" = Some 5 /\
   length <$> RUNNING_ANIMALS_MAPPING !! "black_cat" = Some 5 /\
   length <$> RUNNING_ANIMALS_MAPPING !! "white_horse" = Some 14 /\
   length <$> RUNNING_ANIMALS_MAPPING !! "black_horse" = Some 14 /\
   length <$> RUNNING_ANIMALS_MAPPING !! "white_parrot" = Some 10 /\
   length <$> RUNNING_ANIMALS_MAPPING !! "black_parrot" = Some 10) /\
  "white_cat" ∈ variant_keys /\
  shown_since demo_app (loop_steps mac (length icons + 2) demo_app) = icons /\
  loop (loop_steps mac (length icons + 2) demo_app) = AtTop.
Proof.
  intros icons.
  assert (H1 : RUNNING_ANIMALS_MAPPING !! "white_cat" = Some icons)
    by (vm_compute; reflexivity).
  assert (H2 : loop demo_app = AtTop) by reflexivity.
  assert (H3 : running_animal_icons (self demo_app) = icons) by reflexivity.
  split; [exact H1 |]. split; [exact H2 |]. split; [exact H3 |].
  exact (frames_loaded_and_shown_in_order mac demo_app "white_cat" icons
           H1 H2 H3).
Defined.

Lemma icons_follow_animal_witness :
  let ticks := [MenuTick (ChangeRunningAnimal "black_cat" "black_cat");
                LoopTick; MenuTick (LaunchApp "qq"); LoopTick] in
  "white_horse" ∈ variant_keys /\
  Forall menu_tick ticks /\
  exists mia_cat w',
    MiaCat_init mac "white_horse" (fresh_world FileAbsent)
      = (Returns mia_cat, w') /\
    icons_match {| self := mia_cat; loop := AtTop; world := w' |} /\
    icons_match (run mac ticks {| self := mia_cat; loop := AtTop; world := w' |}).
Proof.
  intros ticks.
  assert (H1 : "white_horse" ∈ variant_keys)
    by (apply (bool_decide_unpack _); vm_compute; exact I).
  assert (H2 : Forall menu_tick ticks).
  { repeat constructor. }
  split; [exact H1 |]. split; [exact H2 |].
  exact (icons_follow_animal mac "white_horse" (fresh_world FileAbsent) AtTop
           ticks H1 H2).
Defined.

(** * Further properties of the code *)

(** ** The coroutine *)

Section Animation.

Context (E : Env).

(** X1: the coroutine only animates.  Whatever the number of steps, what
    it adds to the trace are sleeps, icon updates and title updates; it
    leaves the selected variant, the loop handle, the settings file and
    the parser as they were. *)
Theorem loop_only_animates (n : nat) (s : App) :
  exists events,
    trace (world (loop_steps E n s)) = trace (world s) ++ events /\
    forallb animation_event events = true /\
    running_animal (self (loop_steps E n s)) = running_animal (self s) /\
    running_animal_icons (self (loop_steps E n s))
      = running_animal_icons (self s) /\
    even_loop (self (loop_steps E n s)) = even_loop (self s) /\
    menu (self (loop_steps E n s)) = menu (self s) /\
    settings_ini (world (loop_steps E n s)) = settings_ini (world s) /\
    config (world (loop_steps E n s)) = config (world s).
Proof.
  induction n as [| n (events & Ht & Hall & Hn & Hi & Hl & Hm & Hf & Hc)].
  - exists []. by rewrite app_nil_r.
  - rewrite loop_steps_S. set (s' := loop_steps E n s) in *.
    unfold loop_step. destruct (loop s') as [| icons i d]; simpl.
    + eexists. rewrite Ht, <- app_assoc. split; [reflexivity |].
      rewrite forallb_app, Hall. done.
    + destruct (icons !! i) as [img |]; simpl.
      * eexists. rewrite Ht, <- app_assoc. split; [reflexivity |].
        rewrite forallb_app, Hall. done.
      * by exists events.
Qed.

(** X2: one reading per pass.  A pass that starts at the top of the loop
    takes exactly one CPU reading, puts it in the title, and sleeps the one
    delay computed from it before each frame of the list, in order; [c]
    passes take [c] readings. *)
Theorem one_reading_per_pass (c : nat) (s : App) :
  loop s = AtTop ->
  let icons := running_animal_icons (self s) in
  let cpu := cpu_percent E (cpu_samples (world s)) in
  let s1 := loop_steps E (length icons + 2) s in
  trace (world s1)
    = trace (world s)
        ++ SetTitle (TitleRun cpu) :: pass_events (sleep_duration cpu) icons /\
  title (self s1) = TitleRun cpu /\
  cpu_samples (world s1) = S (cpu_samples (world s)) /\
  loop s1 = AtTop /\
  cpu_samples (world (loop_steps E (c * (length icons + 2)) s))
    = c + cpu_samples (world s).
Proof.
  intros Htop icons cpu s1.
  assert (Hturns : forall n t l i d,
    loop t = InFor l i d -> i + n <= length l ->
    title (self (loop_steps E n t)) = title (self t) /\
    cpu_samples (world (loop_steps E n t)) = cpu_samples (world t)).
  { induction n as [| n IH]; intros t l i d Hl Hn; [done |].
    destruct (for_turns E n t l i d Hl) as (Hl' & _); [lia |].
    destruct (lookup_lt_is_Some_2 l (i + n)) as [img Himg]; [lia |].
    rewrite loop_steps_S, (for_turn E _ l (i + n) d img Hl' Himg). simpl.
    apply (IH t l i d Hl). lia. }
  assert (Hpass : forall t, loop t = AtTop ->
    let t1 := loop_steps E (length (running_animal_icons (self t)) + 2) t in
    title (self t1) = TitleRun (cpu_percent E (cpu_samples (world t))) /\
    cpu_samples (world t1) = S (cpu_samples (world t))).
  { intros t Ht t1. subst t1.
    destruct (enter_pass E t Ht) as (Hl & _).
    set (l := running_animal_icons (self t)) in *.
    replace (length l + 2) with (1 + (length l + 1)) by lia.
    rewrite loop_steps_after. change (loop_steps E 1 t) with (loop_step E t).
    rewrite loop_steps_after.
    destruct (for_turns E (length l) _ l 0 _ Hl) as (Hl' & _); [lia |].
    destruct (Hturns (length l) (loop_step E t) l 0 _ Hl) as (Ht' & Hc'); [lia |].
    change (loop_steps E 1 ?x) with (loop_step E x).
    rewrite (for_exhausted E _ l (0 + length l) _ Hl') by lia. simpl.
    rewrite Ht', Hc'. unfold loop_step. rewrite Ht. done. }
  destruct (full_pass E s Htop) as (Hl & Ht & _).
  destruct (Hpass s Htop) as (Htitle & Hcpu).
  split; [done |]. split; [done |]. split; [done |]. split; [done |].
  clear Ht Htitle Hcpu s1 Hl.
  induction c as [| c IH]; [done |].
  simpl. rewrite (Nat.add_comm (length icons + 2)), loop_steps_after.
  destruct (passes E c s Htop) as (Hl & _ & _ & Hi).
  fold icons in Hl, Hi.
  set (t := loop_steps E (c * (length icons + 2)) s) in *.
  destruct (Hpass t Hl) as (_ & Hc). rewrite Hi in Hc. fold icons in Hc.
  rewrite Hc, IH. done.
Qed.

End Animation.

(** ** What is on the tray *)

Section Framing.

Context (E : Env).

Lemma loop_step_framed (s : App) :
  icons_match s -> loaded_frame (icon (self s)) -> loop_in_table (loop s) ->
  loaded_frame (icon (self (loop_step E s))) /\
  loop_in_table (loop (loop_step E s)).
Proof.
  intros Hmatch Hicon Hloop. unfold loop_step.
  destruct (loop s) as [| icons i d] eqn:Hl; simpl.
  - split; [done |]. split; [lia |]. by eexists.
  - destruct Hloop as (Hi & key & Hkey).
    destruct (icons !! i) as [img |] eqn:Himg; simpl; [| done].
    split.
    + exists key, icons. split; [done |]. by eapply list_elem_of_lookup_2.
    + split; [| by eexists]. apply lookup_lt_Some in Himg. lia.
Qed.

Lemma menu_step_framed (a : Action) (s : App) :
  icon (self (menu_step E a s).2) = icon (self s) /\
  loop (menu_step E a s).2 = loop s.
Proof.
  destruct a as [name key | app |]; simpl; [| done | done].
  by destruct (RUNNING_ANIMALS_MAPPING !! key).
Qed.

Lemma run_framed (ticks : list Tick) (s : App) :
  Forall menu_tick ticks ->
  icons_match s -> loaded_frame (icon (self s)) -> loop_in_table (loop s) ->
  loaded_frame (icon (self (run E ticks s))) /\
  loop_in_table (loop (run E ticks s)).
Proof.
  intros Hticks. revert s.
  induction Hticks as [| t ticks Ht _ IH]; intros s Hm Hi Hl; [done |].
  destruct t as [| a]; simpl.
  - destruct (loop_step_framed s Hm Hi Hl) as (Hi' & Hl').
    apply IH; [by apply loop_step_icons_match | done | done].
  - pose proof (menu_step_icons_match E a s Ht Hm) as Hm'.
    destruct (menu_step_framed a s) as (Hi' & Hl').
    destruct (goes_on a (menu_step E a s).1).
    + apply IH; [done | by rewrite Hi' | by rewrite Hl'].
    + by rewrite Hi', Hl'.
Qed.

(** X3: from a successful start on, whatever the menu and the coroutine
    do, the tray icon is a frame of one of the six loaded lists, and the
    iterator of the [for] loop is on one of those lists at a position no
    greater than its length, so every frame the loop shows is read within
    bounds. *)
Theorem tray_shows_loaded_frames (f : ini_file) (s0 : App) (ticks : list Tick) :
  boot E f = Returns (Some s0) ->
  Forall menu_tick ticks ->
  loaded_frame (icon (self (run E ticks s0))) /\
  loop_in_table (loop (run E ticks s0)).
Proof.
  intros Hboot Hticks.
  destruct (boot_inv E f s0 Hboot) as (_ & Hmatch & Hfirst & _ & Htop & _).
  apply run_framed; [done | done | | by rewrite Htop].
  eexists _, _. split; [exact Hmatch |]. by eapply list_elem_of_lookup_2.
Qed.

(** X4: the last choice wins.  When the variant is switched twice while one
    pass is under way, with [n] turns of the loop in between, the frames
    shown from the first switch on are the rest of the list the pass
    started on and then the second choice from its first frame, pass after
    pass; the first choice is never iterated. *)
Theorem last_switch_wins
    (s : App) (icons : list Image) (i n c : nat) (d : float)
    (name1 key1 name2 key2 : string) (first second : list Image) :
  loop s = InFor icons i d ->
  i + n <= length icons ->
  RUNNING_ANIMALS_MAPPING !! key1 = Some first ->
  RUNNING_ANIMALS_MAPPING !! key2 = Some second ->
  let s1 := (menu_step E (ChangeRunningAnimal name1 key1) s).2 in
  let s2 := loop_steps E n s1 in
  let s3 := (menu_step E (ChangeRunningAnimal name2 key2) s2).2 in
  let rest := length icons - (i + n) in
  shown_since s (loop_steps E (rest + 1 + c * (length second + 2)) s3)
    = drop i icons ++ concat (replicate c second).
Proof.
  intros Hloop Hn Hkey1 Hkey2. cbv zeta.
  assert (Hstep : forall name key new t,
    RUNNING_ANIMALS_MAPPING !! key = Some new ->
    (menu_step E (ChangeRunningAnimal name key) t).2
      = {| self := change_running_animal name new (self t);
           loop := loop t; world := world t |})
    by (intros name key new t Hkey;
        by rewrite (change_animal_step E name key new t Hkey)).
  rewrite (Hstep name1 key1 first s Hkey1).
  set (s1 := {| self := change_running_animal name1 first (self s);
                loop := loop s; world := world s |}).
  set (s2 := loop_steps E n s1).
  rewrite (Hstep name2 key2 second s2 Hkey2).
  set (rest := length icons - (i + n)).
  assert (Hl1 : loop s1 = InFor icons i d) by done.
  destruct (for_turns E n s1 icons i d Hl1 Hn) as (Hl2 & Ht2 & _).
  fold s2 in Hl2, Ht2.
  set (s3 := {| self := change_running_animal name2 second (self s2);
                loop := loop s2; world := world s2 |}).
  assert (Hl3 : loop s3 = InFor icons (i + n) d) by done.
  rewrite loop_steps_after.
  destruct (finish_pass E s3 icons (i + n) d Hl3) as (Hl4 & Ht4 & _ & Hc4).
  fold rest in Hl4, Ht4, Hc4.
  set (s4 := loop_steps E (rest + 1) s3) in *.
  destruct (passes E c s4 Hl4) as (_ & (events & Ht5 & Hf5) & _).
  rewrite Hc4 in Ht5, Hf5. simpl in Ht5, Hf5.
  rewrite (shown_since_events s _
             (pass_events d (take n (drop i icons))
                ++ pass_events d (drop (i + n) icons) ++ events)).
  - rewrite !frames_shown_app, !frames_shown_pass, Hf5, app_assoc.
    f_equal. rewrite <- drop_drop. apply take_drop.
  - rewrite Ht5, Ht4. simpl. rewrite Ht2. simpl. by rewrite <- !app_assoc.
Qed.

End Framing.

(** ** The launcher, case by case *)

Section LauncherCases.

Context (E : Env).

(** The table of this platform is bound, with the three names as keys. *)
Lemma platform_table :
  exists p1 p2 p3,
    (if IS_WINDOWS E then WINDOWS_APP_PATH E else MAC_APP_PATH E)
      = Some (list_to_map [("wechat", p1); ("qq", p2); ("chrome", p3)]).
Proof.
  unfold WINDOWS_APP_PATH, MAC_APP_PATH.
  destruct (IS_WINDOWS E); by eexists _, _, _.
Qed.

Lemma app_path_of_whitelist (app_name : string) :
  app_name ∈ ["wechat"; "qq"; "chrome"] <-> is_Some (app_path_of E app_name).
Proof.
  unfold app_path_of. destruct platform_table as (p1 & p2 & p3 & ->).
  unfold mbind, option_bind.
  rewrite <- elem_of_dom, dom_list_to_map_L. simpl. set_solver.
Qed.

(** All that [launch_app] can do, by what the name resolves to and what
    the child does. *)
Lemma launch_app_cases (app_name : string) (w : World) :
  launch_app E app_name w
    = match app_path_of E app_name with
      | None => (Raises (KeyError app_name), w)
      | Some None =>
          (Returns tt,
           with_events w
             [LogError ("Application name " +:+ dquote +:+ app_name +:+ dquote
                        +:+ " is called, but could not find path")])
      | Some (Some path) =>
          match spawn E ["open"; "-a"; path] with
          | SpawnFails =>
              (Raises OSError, with_events w [Popen ["open"; "-a"; path]])
          | ChildRuns =>
              (Blocks, with_events w [Popen ["open"; "-a"; path]; ProcWait])
          | ChildExits return_code =>
              if bool_decide (return_code ≠ 0%Z) then
                if IS_WINDOWS E then
                  (Raises (NameError "MAC_APP_PATH"),
                   with_events w [Popen ["open"; "-a"; path]; ProcWait])
                else
                  (Returns tt,
                   with_events w
                     [Popen ["open"; "-a"; path]; ProcWait;
                      LogError ("Application " +:+ path
                                +:+ " failed to start with return code "
                                +:+ str_int return_code +:+ ".")])
              else
                (Returns tt,
                 with_events w [Popen ["open"; "-a"; path]; ProcWait])
          end
      end.
Proof.
  unfold app_path_of. destruct platform_table as (p1 & p2 & p3 & Htable).
  unfold launch_app.
  destruct (IS_WINDOWS E) eqn:Hwin; rewrite Htable; run_monad;
    (destruct (_ !! app_name) as [[path |] |] eqn:Hname; simpl;
     [| reflexivity | reflexivity]);
    (destruct (spawn E ["open"; "-a"; path]) as [| return_code |]; simpl;
     [reflexivity | | by unfold with_events; simpl; rewrite <- !app_assoc]);
    case_bool_decide; simpl;
    try (by unfold with_events; simpl; rewrite <- !app_assoc).
  unfold MAC_APP_PATH. rewrite Hwin. simpl.
  by unfold with_events; simpl; rewrite <- !app_assoc.
Qed.

(** X5: a name outside the table.  On either platform [launch_app] on a
    name other than wechat, qq and chrome raises KeyError on that name and
    does nothing else: no log line, no spawn. *)
Theorem launch_unknown_name (app_name : string) (w : World) :
  app_name ∉ ["wechat"; "qq"; "chrome"] ->
  launch_app E app_name w = (Raises (KeyError app_name), w).
Proof.
  intros Hname. rewrite launch_app_cases.
  destruct (app_path_of E app_name) as [p |] eqn:Hp; [| done].
  exfalso. apply Hname, app_path_of_whitelist. by rewrite Hp.
Qed.

(** X6: one attempt, never a retry.  Whatever comes of it, a call of
    [launch_app] only appends to the trace, and what it appends holds at
    most one spawn, one wait and one error line; a spawn is always of
    [open -a path] on the path the name resolved to, on every platform. *)
Theorem launch_at_most_once (app_name : string) (w : World) :
  exists events,
    (launch_app E app_name w).2 = with_events w events /\
    tally is_spawn events <= 1 /\
    tally is_wait events <= 1 /\
    tally is_log_error events <= 1 /\
    forall argv,
      Popen argv ∈ events ->
      exists path,
        app_path_of E app_name = Some (Some path) /\
        argv = ["open"; "-a"; path].
Proof.
  rewrite launch_app_cases.
  assert (Hspawn : forall path rest argv,
    Forall (fun e => is_spawn e = false) rest ->
    Popen argv ∈ Popen ["open"; "-a"; path] :: rest ->
    argv = ["open"; "-a"; path]).
  { intros path rest argv Hrest [Heq | Hin]%elem_of_cons; [congruence |].
    rewrite Forall_forall in Hrest. by specialize (Hrest _ Hin). }
  destruct (app_path_of E app_name) as [[path |] |].
  - destruct (spawn E ["open"; "-a"; path]) as [| return_code |];
      [| case_bool_decide; [destruct (IS_WINDOWS E) |] |];
      (eexists; split; [reflexivity |]; cbn;
       split; [lia |]; split; [lia |]; split; [lia |];
       intros argv Hin; exists path; split; [done |];
       eapply Hspawn; [| exact Hin]; by repeat constructor).
  - eexists. split; [reflexivity |]. cbn.
    split; [lia |]. split; [lia |]. split; [lia |].
    intros argv [H | H%elem_of_nil]%elem_of_cons; done.
  - exists []. split; [| cbn; repeat split; try lia; by intros ? ?%elem_of_nil].
    destruct w. unfold with_events. simpl. by rewrite app_nil_r.
Qed.

(** X7: on Windows, once a path is resolved, the launcher never logs: it
    returns normally exactly when the child exits with code 0, raises
    NameError on any other code, raises when the child cannot be started,
    and does not return while the child runs. *)
Theorem windows_launch_outcomes (app_name path : string) (w : World) :
  IS_WINDOWS E = true ->
  app_path_of E app_name = Some (Some path) ->
  exists events,
    (launch_app E app_name w).2 = with_events w events /\
    tally is_log_error events = 0 /\
    (launch_app E app_name w).1
      = match spawn E ["open"; "-a"; path] with
        | SpawnFails => Raises OSError
        | ChildRuns => Blocks
        | ChildExits return_code =>
            if bool_decide (return_code = 0%Z) then Returns tt
            else Raises (NameError "MAC_APP_PATH")
        end.
Proof.
  intros Hwin Hpath. rewrite launch_app_cases, Hpath, Hwin.
  destruct (spawn E ["open"; "-a"; path]) as [| return_code |];
    [| repeat case_bool_decide; try done |];
    (eexists; split; [reflexivity |]; done).
Qed.

End LauncherCases.

(** ** The menu against the tables *)

Section MenuCases.

Context (E : Env).

(** X8: the menu and the tables agree.  Every variant of the frame table
    has its entry in the menu; an entry of the menu that changes the
    variant always returns and selects a key of the table under its own
    name; and no callback of the menu, on either platform, raises
    KeyError. *)
Theorem menu_matches_tables (a : Action) (s : App) :
  a ∈ menu_callbacks make_menu ->
  (forall key icons,
      RUNNING_ANIMALS_MAPPING !! key = Some icons ->
      ChangeRunningAnimal key key ∈ menu_callbacks make_menu) /\
  (forall name key,
      a = ChangeRunningAnimal name key ->
      name = key /\
      exists icons,
        RUNNING_ANIMALS_MAPPING !! key = Some icons /\
        menu_step E a s
          = (Returns tt,
             {| self := change_running_animal key icons (self s);
                loop := loop s; world := world s |})) /\
  (forall key, (menu_step E a s).1 <> Raises (KeyError key)).
Proof.
  intros Ha. split; [| split].
  - intros key icons Hkey. apply mapping_keys in Hkey.
    unfold variant_keys in Hkey. vm_compute.
    repeat (apply elem_of_cons in Hkey as [-> | Hkey]; [by repeat constructor |]).
    by apply elem_of_nil in Hkey.
  - intros name key ->.
    destruct (menu_callback_cases _ Ha) as [(k & Hk & Heq) | [[? ?] | ?]];
      [| done | done].
    injection Heq as -> ->. split; [done |].
    destruct (mapping_known k Hk) as (icons & _ & Hicons & _).
    exists icons. split; [done |]. by apply change_animal_step.
  - intros key.
    destruct (menu_callback_cases _ Ha) as [(k & Hk & ->) | [[app ->] | ->]].
    + destruct (mapping_known k Hk) as (icons & _ & Hicons & _).
      by rewrite (change_animal_step E k k icons s Hicons).
    + assert (Happ : app ∈ ["wechat"; "qq"; "chrome"]).
      { vm_compute in Ha.
        repeat (apply elem_of_cons in Ha as [Ha | Ha];
                [try discriminate Ha; injection Ha as ->; by repeat constructor |]).
        by apply elem_of_nil in Ha. }
      apply (app_path_of_whitelist E) in Happ as [p Hp].
      unfold menu_step. simpl. rewrite launch_app_cases, Hp.
      destruct p as [path |]; [| done].
      destruct (spawn E ["open"; "-a"; path]); try done.
      case_bool_decide; [destruct (IS_WINDOWS E) |]; done.
    + unfold menu_step, stop_mia_cat. simpl.
      destruct (even_loop (self s)); run_monad; [| done].
      cbv [config_set config_write]. simpl.
      destruct (config (world s) !! "animal"); simpl; [| done].
      destruct (IS_WINDOWS E); done.
Qed.

End MenuCases.

(** ** The instance guard *)

Section Guard.

Context (E : Env).

(** X9: a second instance does not open a tray.  When the guard finds
    another instance, [start_mia_cat] returns at once: it starts no thread
    and runs no tray, logs one line, and start-up on good settings ends
    there; the mutex call is made on Windows only. *)
Theorem second_instance_exits
    (mia_cat : MiaCat) (w : World) (f : ini_file) (v : string) (icons : list Image) :
  already_running E = true ->
  settings_entry f = Some v ->
  RUNNING_ANIMALS_MAPPING !! v = Some icons ->
  boot E f = Returns None /\
  start_mia_cat E mia_cat w
    = (Returns None,
       with_events w
         ((if IS_WINDOWS E then [CreateMutex] else [])
            ++ [LogInfo "MiaCat is already running. Exiting."])).
Proof.
  intros Hfound Hentry Hkey. split.
  - pose proof (boot_known E f v icons Hentry Hkey) as H.
    by rewrite Hfound in H.
  - unfold start_mia_cat, is_app_running. rewrite Hfound.
    destruct (IS_WINDOWS E); run_monad; unfold with_events; simpl;
      by rewrite <- ?app_assoc.
Qed.

(** X10: a first instance starts both threads.  When the guard finds no
    other instance, [start_mia_cat] creates the loop handle, starts the
    animation thread and then runs the tray, and changes nothing else of
    the object; on Windows it holds the mutex from then on. *)
Theorem first_instance_starts (mia_cat : MiaCat) (w : World) :
  already_running E = false ->
  exists started,
    start_mia_cat E mia_cat w
      = (Returns (Some started),
         with_events w
           ((if IS_WINDOWS E then [CreateMutex] else [])
              ++ [ThreadStart; TrayRun])) /\
    even_loop started = true /\
    mia_cat_mutex started = (IS_WINDOWS E || mia_cat_mutex mia_cat) /\
    running_animal started = running_animal mia_cat /\
    running_animal_icons started = running_animal_icons mia_cat /\
    icon started = icon mia_cat /\
    title started = title mia_cat.
Proof.
  intros Hfree. unfold start_mia_cat, is_app_running. rewrite Hfree.
  destruct (IS_WINDOWS E); run_monad; eexists;
    (split; [unfold with_events; simpl; by rewrite <- ?app_assoc | done]).
Qed.

End Guard.

(** ** The process scan *)

Lemma process_scan_app (before after : list process) :
  Forall (fun q => looks_like_mia_cat q = Some false) before ->
  process_scan (before ++ after) = process_scan after.
Proof.
  induction 1 as [| q before Hq _ IH]; [done |]. simpl. by rewrite Hq.
Qed.

(** X11: what the scan finds.  The scan answers True exactly when some
    process passes the test and every process yielded before it could be
    inspected and failed the test. *)
Theorem process_scan_finds (procs : list process) :
  process_scan procs = true <->
  exists before p after,
    procs = before ++ p :: after /\
    Forall (fun q => looks_like_mia_cat q = Some false) before /\
    looks_like_mia_cat p = Some true.
Proof.
  split.
  - induction procs as [| q procs IH]; [done |]. simpl.
    destruct (looks_like_mia_cat q) as [[|] |] eqn:Hq; [| | done].
    + intros _. by exists [], q, procs.
    + intros (before & p & after & -> & Hbefore & Hp)%IH.
      exists (q :: before), p, after. split; [done |]. by split; [constructor |].
  - intros (before & p & after & -> & Hbefore & Hp).
    rewrite (process_scan_app _ _ Hbefore). simpl. by rewrite Hp.
Qed.

(** X12: a process that cannot be inspected hides the ones after it.  If
    the first process that passes the test or raises is one whose name or
    command line cannot be read, the scan answers False whatever follows,
    a running instance included. *)
Theorem process_scan_hidden (before after : list process) (p : process) :
  Forall (fun q => looks_like_mia_cat q = Some false) before ->
  looks_like_mia_cat p = None ->
  process_scan (before ++ p :: after) = false.
Proof.
  intros Hbefore Hp. rewrite (process_scan_app _ _ Hbefore). simpl.
  by rewrite Hp.
Qed.

(** X13: the guard follows the scan.  Off Windows, when the guard's answer
    is the scan of the live processes and one of them, ahead of any that
    cannot be inspected, has "python" in its name and the argument
    "mia_cat.py" on its command line, start-up on good settings ends
    without a tray. *)
Theorem scan_match_ends_start
    (E : Env) (before after : list process) (p : process)
    (name : string) (args : list string)
    (f : ini_file) (v : string) (icons : list Image) :
  IS_WINDOWS E = false ->
  Forall (fun q => looks_like_mia_cat q = Some false) before ->
  proc_name p = Some name ->
  str_contains "python" name = true ->
  proc_cmdline p = Some args ->
  "mia_cat.py" ∈ args ->
  settings_entry f = Some v ->
  RUNNING_ANIMALS_MAPPING !! v = Some icons ->
  process_scan (before ++ p :: after) = true /\
  boot (with_guard E (process_scan (before ++ p :: after))) f = Returns None.
Proof.
  intros _ Hbefore Hname Hpython Hcmd Harg Hentry Hkey.
  assert (Hscan : process_scan (before ++ p :: after) = true).
  { rewrite (process_scan_app _ _ Hbefore). simpl.
    unfold looks_like_mia_cat. rewrite Hname, Hpython, Hcmd.
    by rewrite bool_decide_true. }
  split; [done |]. rewrite Hscan.
  exact (boot_known (with_guard E true) f v icons Hentry Hkey).
Qed.

(** ** The settings file *)

Section Settings.

Context (E : Env).

Lemma menu_step_keeps_settings (a : Action) (s : App) :
  a <> StopMiaCat ->
  settings_ini (world (menu_step E a s).2) = settings_ini (world s) /\
  config (world (menu_step E a s).2) = config (world s).
Proof.
  intros Ha. destruct a as [name key | app |]; simpl; [| | done].
  - by destruct (RUNNING_ANIMALS_MAPPING !! key).
  - by destruct (launch_app_appends E app (world s)) as [events ->].
Qed.

Lemma loop_step_keeps_settings (s : App) :
  settings_ini (world (loop_step E s)) = settings_ini (world s) /\
  config (world (loop_step E s)) = config (world s).
Proof.
  unfold loop_step. destruct (loop s) as [| icons i d]; simpl; [done |].
  by destruct (icons !! i).
Qed.

(** X14: settings are written on Exit only.  Along any schedule without
    the Exit callback, whatever callbacks it holds and however often the
    variant is switched, the settings file and the parser stay as they
    were. *)
Theorem settings_written_on_exit_only (ticks : list Tick) (s : App) :
  Forall not_exit ticks ->
  settings_ini (world (run E ticks s)) = settings_ini (world s) /\
  config (world (run E ticks s)) = config (world s).
Proof.
  intros Hticks. revert s.
  induction Hticks as [| t ticks Ht _ IH]; intros s; [done |].
  destruct t as [| a]; simpl.
  - destruct (IH (loop_step E s)) as (-> & ->). apply loop_step_keeps_settings.
  - assert (Ha : a <> StopMiaCat) by (intros ->; by apply Ht).
    destruct (menu_step_keeps_settings a s Ha) as (Hf & Hc).
    destruct (goes_on a (menu_step E a s).1); [| done].
    destruct (IH (menu_step E a s).2) as (-> & ->). done.
Qed.

Lemma run_keeps_config (ticks : list Tick) (s : App) :
  Forall not_exit ticks -> config (world (run E ticks s)) = config (world s).
Proof.
  intros Hticks. revert s.
  induction Hticks as [| t ticks Ht _ IH]; intros s; [done |].
  destruct t as [| a]; simpl.
  - rewrite IH. apply loop_step_keeps_settings.
  - assert (Ha : a <> StopMiaCat) by (intros ->; by apply Ht).
    destruct (menu_step_keeps_settings a s Ha) as (_ & Hc).
    destruct (goes_on a (menu_step E a s).1); [| done]. by rewrite IH.
Qed.

Lemma boot_config (c : Config) (s : App) :
  boot E (FileIni c) = Returns (Some s) ->
  config (world s) = c /\ settings_ini (world s) = FileIni c.
Proof.
  unfold boot, main, MiaCat_init, start_mia_cat, is_app_running, index.
  run_monad. cbv [new_config config_read config_get get_cpu_percent]. simpl.
  rewrite read_into_empty. intros H.
  repeat (case_match; simplify_eq/=); done.
Qed.

(** X15: Exit rewrites one entry.  After a start on a settings file and
    any schedule of the menu and the coroutine short of Exit, Exit stops
    the loop and the tray, then writes back the file it read with the
    entry [run_animal] of section [animal] set to the current variant:
    every other section and option is kept, and the file is the same as
    before when the variant is the one the file named. *)
Theorem exit_rewrites_one_entry
    (c : Config) (s0 : App) (ticks : list Tick) :
  boot E (FileIni c) = Returns (Some s0) ->
  Forall menu_tick ticks ->
  Forall not_exit ticks ->
  let s := run E ticks s0 in
  exists s_end opts c',
    c !! "animal" = Some opts /\
    menu_step E StopMiaCat s = (Returns tt, s_end) /\
    c' = <["animal" := <["run_animal" := running_animal (self s)]> opts]> c /\
    settings_ini (world s_end) = FileIni c' /\
    trace (world s_end)
      = trace (world s)
          ++ [LoopStop; TrayStop; WriteFile INI_FILE_PATH]
          ++ (if IS_WINDOWS E then [CloseHandle] else []) /\
    (forall section key,
        (section, key) <> ("animal", "run_animal") ->
        entry_of c' section key = entry_of c section key) /\
    (running_animal (self s) = running_animal (self s0) -> c' = c).
Proof.
  intros Hboot Hticks Hnoexit s.
  destruct (boot_inv E _ s0 Hboot) as (Hentry & Hmatch & _ & Hloop & _ & Hsec).
  destruct (boot_config c s0 Hboot) as (Hc0 & _).
  pose proof (run_keeps_config ticks s0 Hnoexit) as Hc.
  fold s in Hc. rewrite Hc0 in Hc.
  assert (Hs : consistent s) by (by apply run_consistent).
  destruct Hs as [_ Hloop' _].
  simpl in Hentry.
  destruct (c !! "animal") as [opts |] eqn:Hopts; [| done]. simpl in Hentry.
  exists {| self := self s; loop := loop s;
            world := (stop_mia_cat E (self s) (world s)).2 |}, opts,
         (<["animal" := <["run_animal" := running_animal (self s)]> opts]> c).
  split; [done |].
  unfold menu_step, stop_mia_cat. rewrite Hloop'. run_monad.
  cbv [config_set config_write]. simpl. rewrite Hc, Hopts. simpl.
  split; [by destruct (IS_WINDOWS E) |]. split; [reflexivity |].
  split; [by destruct (IS_WINDOWS E) |].
  split; [destruct (IS_WINDOWS E); simpl; by rewrite <- !app_assoc |].
  split.
  - intros section key Hne. unfold entry_of.
    destruct (decide (section = "animal")) as [-> | Hsection].
    + rewrite lookup_insert_eq, Hopts. simpl.
      apply lookup_insert_ne. congruence.
    + by rewrite lookup_insert_ne.
  - intros ->. rewrite (insert_id opts) by done. by apply insert_id.
Qed.


End Settings.

(** ** Bounds on the delay *)

(** X17: the delay is bounded.  For every reading in [0, 100] the formula
    lies between 1/110 and 1/10; the binary64 delay the loop computes at a
    one-decimal reading is a finite positive number between its value at
    100 and its value at 0, the latter just below 1/10: the loop shows
    between 10 and 110 frames per unit of time. *)
Theorem delay_bounds (p : Q) (k : nat) :
  (0 <= p)%Q -> (p <= 100)%Q -> (k <= 1000)%nat ->
  (1 # 110 <= delay p)%Q /\ (delay p <= 1 # 10)%Q /\
  Q_of_float (sleep_duration (reading k)) = Some (delay_at k) /\
  (0 < delay_at k)%Q /\
  (delay_at 1000 <= delay_at k)%Q /\ (delay_at k <= delay_at 0)%Q /\
  (delay_at 0 < 1 # 10)%Q /\ (1 # 111 < delay_at 1000)%Q.
Proof.
  intros Hp Hp' Hk.
  split; [| split].
  - apply Qle_trans with (delay 100); [by apply Qle_bool_iff |].
    by apply delay_antitone.
  - apply Qle_trans with (delay 0); [| by apply Qle_bool_iff].
    apply delay_antitone; [apply Qle_refl | done].
  - assert (Hlow : (delay_at 1000 <= delay_at k)%Q).
    { eapply descending_lookup;
        [apply descending_grid | exact Hk | by apply delay_at_lookup
        | by apply delay_at_lookup]. }
    assert (Hhigh : (delay_at k <= delay_at 0)%Q).
    { eapply descending_lookup;
        [apply descending_grid | apply Nat.le_0_l | apply delay_at_lookup; lia
        | by apply delay_at_lookup]. }
    assert (Hend : (1 # 111 < delay_at 1000)%Q) by (vm_compute; reflexivity).
    split.
    { destruct (close_at_reading k Hk) as (y & Hy & _).
      unfold delay_at. by rewrite Hy. }
    split; [| split; [done | split; [done | split; [| done]]]].
    + eapply Qlt_le_trans; [| exact Hlow].
      eapply Qlt_trans; [| exact Hend]. reflexivity.
    + vm_compute. reflexivity.
Qed.

(** ** Construction *)

(** X18: construction.  [MiaCat(key)] on a key outside the table raises
    KeyError before it reads the CPU or does anything else; on a key of
    the table it takes one reading for the title and returns an object on
    the first frame of the key's list, with no loop handle and no mutex
    yet.  It never raises IndexError: every list of the table has a first
    frame. *)
Theorem construction_on_key (E : Env) (key : string) (w : World) :
  match RUNNING_ANIMALS_MAPPING !! key with
  | None => MiaCat_init E key w = (Raises (KeyError key), w)
  | Some icons =>
      exists first,
        icons !! 0 = Some first /\
        MiaCat_init E key w
          = (Returns
               {| running_animal := key; running_animal_icons := icons;
                  even_loop := false; mia_cat_mutex := false;
                  icon := first;
                  title := TitleInit (cpu_percent E (cpu_samples w));
                  menu := make_menu |},
             {| trace := trace w; cpu_samples := S (cpu_samples w);
                settings_ini := settings_ini w; config := config w |})
  end.
Proof.
  unfold MiaCat_init, index. run_monad.
  destruct (RUNNING_ANIMALS_MAPPING !! key) as [icons |] eqn:Hkey;
    [| reflexivity].
  destruct (mapping_first key icons Hkey) as [first Hfirst].
  exists first. split; [done |]. simpl. by rewrite Hfirst.
Qed.

(** ** How soon a switch shows *)

Lemma mapping_length (key : string) (icons : list Image) :
  RUNNING_ANIMALS_MAPPING !! key = Some icons -> length icons <= 14.
Proof.
  intros Hkey. pose proof (mapping_keys key icons Hkey) as Hin.
  unfold variant_keys in Hin.
  repeat (apply elem_of_cons in Hin as [-> | Hin];
          [vm_compute in Hkey; injection Hkey as <-; simpl; lia |]).
  by apply elem_of_nil in Hin.
Qed.

(** X19: a switch shows within fourteen frames.  At any moment after a
    successful start, when an entry of the menu switches the variant, the
    loop reaches the first frame of the new list after at most sixteen of
    its steps, having shown at most fourteen more frames of the list it
    was on. *)
Theorem switch_shows_within_fourteen_frames
    (E : Env) (f : ini_file) (s0 : App) (ticks : list Tick)
    (name key : string) :
  boot E f = Returns (Some s0) ->
  Forall menu_tick ticks ->
  ChangeRunningAnimal name key ∈ menu_callbacks make_menu ->
  let s := (menu_step E (ChangeRunningAnimal name key) (run E ticks s0)).2 in
  exists new n d,
    RUNNING_ANIMALS_MAPPING !! key = Some new /\
    running_animal_icons (self s) = new /\
    n <= 16 /\
    loop (loop_steps E n s) = InFor new 0 d /\
    length (shown_since s (loop_steps E n s)) <= 14.
Proof.
  intros Hboot Hticks Hmenu. cbv zeta.
  destruct (boot_inv E f s0 Hboot) as (_ & Hmatch & Hfirst & _ & Htop0 & _).
  assert (Hloop : loop_in_table (loop (run E ticks s0))).
  { apply run_framed; [done | done | | by rewrite Htop0].
    eexists _, _. split; [exact Hmatch |]. by eapply list_elem_of_lookup_2. }
  set (s1 := run E ticks s0) in *.
  destruct (menu_callback_cases _ Hmenu) as [(k & Hk & Heq) | [[? ?] | ?]];
    [| done | done].
  injection Heq as -> ->.
  destruct (mapping_known k Hk) as (new & _ & Hnew & _).
  rewrite (change_animal_step E k k new s1 Hnew). simpl.
  set (s := {| self := change_running_animal k new (self s1);
               loop := loop s1; world := world s1 |}).
  exists new.
  destruct (loop s1) as [| icons i d] eqn:Hl.
  - assert (Htop : loop s = AtTop) by done.
    destruct (enter_pass E s Htop) as (Hl1 & Ht1 & _).
    exists 1. eexists. split; [done |]. split; [done |]. split; [lia |].
    split; [exact Hl1 |].
    change (loop_steps E 1 s) with (loop_step E s).
    rewrite (shown_since_events _ _ _ Ht1). simpl. lia.
  - destruct Hloop as (Hi & k' & Hk').
    assert (Hfor : loop s = InFor icons i d) by done.
    destruct (finish_pass E s icons i d Hfor) as (Hl1 & Ht1 & _ & Hc1).
    set (s2 := loop_steps E (length icons - i + 1) s) in *.
    destruct (enter_pass E s2 Hl1) as (Hl2 & Ht2 & _).
    pose proof (mapping_length k' icons Hk') as Hlen.
    exists (length icons - i + 1 + 1). eexists.
    split; [done |]. split; [done |]. split; [lia |].
    rewrite loop_steps_after. change (loop_steps E 1 ?x) with (loop_step E x).
    fold s2. rewrite Hl2, Hc1. split; [reflexivity |].
    rewrite (shown_since_events s _ (pass_events d (drop i icons) ++ _))
      by (by rewrite Ht2, Ht1, <- app_assoc).
    rewrite frames_shown_app, frames_shown_pass. simpl.
    rewrite app_nil_r, length_drop. lia.
Qed.

(** ** The further properties at sample inputs *)

Lemma one_reading_per_pass_witness :
  loop demo_app = AtTop /\
  let icons := running_animal_icons (self demo_app) in
  let cpu := cpu_percent mac (cpu_samples (world demo_app)) in
  let s1 := loop_steps mac (length icons + 2) demo_app in
  trace (world s1)
    = trace (world demo_app)
        ++ SetTitle (TitleRun cpu) :: pass_events (sleep_duration cpu) icons /\
  title (self s1) = TitleRun cpu /\
  cpu_samples (world s1) = S (cpu_samples (world demo_app)) /\
  loop s1 = AtTop /\
  cpu_samples (world (loop_steps mac (2 * (length icons + 2)) demo_app))
    = 2 + cpu_samples (world demo_app).
Proof.
  assert (H1 : loop demo_app = AtTop) by reflexivity.
  split; [exact H1 |].
  exact (one_reading_per_pass mac 2 demo_app H1).
Defined.

Lemma tray_shows_loaded_frames_witness :
  let ticks := [LoopTick; LoopTick;
                MenuTick (ChangeRunningAnimal "white_parrot" "white_parrot");
                LoopTick] in
  boot mac (FileIni (settings "white_cat")) = Returns (Some demo_app) /\
  Forall menu_tick ticks /\
  loaded_frame (icon (self (run mac ticks demo_app))) /\
  loop_in_table (loop (run mac ticks demo_app)).
Proof.
  intros ticks.
  assert (H1 : boot mac (FileIni (settings "white_cat")) = Returns (Some demo_app))
    by (vm_compute; reflexivity).
  assert (H2 : Forall menu_tick ticks) by (repeat constructor).
  split; [exact H1 |]. split; [exact H2 |].
  exact (tray_shows_loaded_frames mac (FileIni (settings "white_cat")) demo_app
           ticks H1 H2).
Defined.

Lemma last_switch_wins_witness :
  let s := loop_step mac demo_app in
  let icons := load_frames "./res/cat/white_cat_" 5 in
  let first := load_frames "./res/horse/black_horse_" 14 in
  let second := load_frames "./res/parrot/white_parrot_" 10 in
  let d := sleep_duration (reading 10) in
  loop s = InFor icons 0 d /\
  0 + 2 <= length icons /\
  RUNNING_ANIMALS_MAPPING !! "black_horse" = Some first /\
  RUNNING_ANIMALS_MAPPING !! "white_parrot" = Some second /\
  let s1 := (menu_step mac (ChangeRunningAnimal "black_horse" "black_horse") s).2 in
  let s2 := loop_steps mac 2 s1 in
  let s3 := (menu_step mac (ChangeRunningAnimal "white_parrot" "white_parrot") s2).2 in
  let rest := length icons - (0 + 2) in
  shown_since s (loop_steps mac (rest + 1 + 1 * (length second + 2)) s3)
    = drop 0 icons ++ concat (replicate 1 second).
Proof.
  intros s icons first second d.
  assert (H1 : loop s = InFor icons 0 d) by reflexivity.
  assert (H2 : 0 + 2 <= length icons) by (simpl; lia).
  assert (H3 : RUNNING_ANIMALS_MAPPING !! "black_horse" = Some first)
    by (vm_compute; reflexivity).
  assert (H4 : RUNNING_ANIMALS_MAPPING !! "white_parrot" = Some second)
    by (vm_compute; reflexivity).
  split; [exact H1 |]. split; [exact H2 |]. split; [exact H3 |].
  split; [exact H4 |].
  exact (last_switch_wins mac s icons 0 2 1 d "black_horse" "black_horse"
           "white_parrot" "white_parrot" first second H1 H2 H3 H4).
Defined.

Lemma launch_unknown_name_witness :
  ("safari" ∉ ["wechat"; "qq"; "chrome"]) /\
  launch_app mac "safari" (world demo_app)
    = (Raises (KeyError "safari"), world demo_app).
Proof.
  assert (H1 : "safari" ∉ ["wechat"; "qq"; "chrome"])
    by (apply (bool_decide_unpack _); vm_compute; exact I).
  split; [exact H1 |].
  exact (launch_unknown_name mac "safari" (world demo_app) H1).
Defined.

Lemma windows_launch_outcomes_witness :
  IS_WINDOWS windows = true /\
  app_path_of windows "chrome" = Some (Some "C:/Apps/chrome.exe") /\
  exists events,
    (launch_app windows "chrome" (world demo_app)).2
      = with_events (world demo_app) events /\
    tally is_log_error events = 0 /\
    (launch_app windows "chrome" (world demo_app)).1
      = match spawn windows ["open"; "-a"; "C:/Apps/chrome.exe"] with
        | SpawnFails => Raises OSError
        | ChildRuns => Blocks
        | ChildExits return_code =>
            if bool_decide (return_code = 0%Z) then Returns tt
            else Raises (NameError "MAC_APP_PATH")
        end.
Proof.
  assert (H1 : IS_WINDOWS windows = true) by reflexivity.
  assert (H2 : app_path_of windows "chrome" = Some (Some "C:/Apps/chrome.exe"))
    by (vm_compute; reflexivity).
  split; [exact H1 |]. split; [exact H2 |].
  exact (windows_launch_outcomes windows "chrome" "C:/Apps/chrome.exe"
           (world demo_app) H1 H2).
Defined.

Lemma menu_matches_tables_witness :
  LaunchApp "qq" ∈ menu_callbacks make_menu /\
  (forall key icons,
      RUNNING_ANIMALS_MAPPING !! key = Some icons ->
      ChangeRunningAnimal key key ∈ menu_callbacks make_menu) /\
  (forall name key,
      LaunchApp "qq" = ChangeRunningAnimal name key ->
      name = key /\
      exists icons,
        RUNNING_ANIMALS_MAPPING !! key = Some icons /\
        menu_step mac (LaunchApp "qq") demo_app
          = (Returns tt,
             {| self := change_running_animal key icons (self demo_app);
                loop := loop demo_app; world := world demo_app |})) /\
  (forall key, (menu_step mac (LaunchApp "qq") demo_app).1 <> Raises (KeyError key)).
Proof.
  assert (H1 : LaunchApp "qq" ∈ menu_callbacks make_menu) by (repeat constructor).
  split; [exact H1 |].
  exact (menu_matches_tables mac (LaunchApp "qq") demo_app H1).
Defined.

Lemma second_instance_exits_witness :
  let E := with_guard mac true in
  let f := FileIni (settings "white_cat") in
  let icons := load_frames "./res/cat/white_cat_" 5 in
  already_running E = true /\
  settings_entry f = Some "white_cat" /\
  RUNNING_ANIMALS_MAPPING !! "white_cat" = Some icons /\
  boot E f = Returns None /\
  start_mia_cat E (self demo_app) (world demo_app)
    = (Returns None,
       with_events (world demo_app)
         ((if IS_WINDOWS E then [CreateMutex] else [])
            ++ [LogInfo "MiaCat is already running. Exiting."])).
Proof.
  intros E f icons.
  assert (H1 : already_running E = true) by reflexivity.
  assert (H2 : settings_entry f = Some "white_cat") by (vm_compute; reflexivity).
  assert (H3 : RUNNING_ANIMALS_MAPPING !! "white_cat" = Some icons)
    by (vm_compute; reflexivity).
  split; [exact H1 |]. split; [exact H2 |]. split; [exact H3 |].
  exact (second_instance_exits E (self demo_app) (world demo_app) f "white_cat"
           icons H1 H2 H3).
Defined.

Lemma first_instance_starts_witness :
  already_running windows = false /\
  exists started,
    start_mia_cat windows (self demo_app) (world demo_app)
      = (Returns (Some started),
         with_events (world demo_app)
           ((if IS_WINDOWS windows then [CreateMutex] else [])
              ++ [ThreadStart; TrayRun])) /\
    even_loop started = true /\
    mia_cat_mutex started = (IS_WINDOWS windows || mia_cat_mutex (self demo_app)) /\
    running_animal started = running_animal (self demo_app) /\
    running_animal_icons started = running_animal_icons (self demo_app) /\
    icon started = icon (self demo_app) /\
    title started = title (self demo_app).
Proof.
  assert (H1 : already_running windows = false) by reflexivity.
  split; [exact H1 |].
  exact (first_instance_starts windows (self demo_app) (world demo_app) H1).
Defined.

Lemma process_scan_hidden_witness :
  Forall (fun q => looks_like_mia_cat q = Some false) [finder] /\
  looks_like_mia_cat zombie = None /\
  process_scan ([finder] ++ zombie :: [running_mia_cat]) = false.
Proof.
  assert (H1 : Forall (fun q => looks_like_mia_cat q = Some false) [finder])
    by (repeat constructor).
  assert (H2 : looks_like_mia_cat zombie = None) by reflexivity.
  split; [exact H1 |]. split; [exact H2 |].
  exact (process_scan_hidden [finder] [running_mia_cat] zombie H1 H2).
Defined.

Lemma scan_match_ends_start_witness :
  let f := FileIni (settings "white_cat") in
  let icons := load_frames "./res/cat/white_cat_" 5 in
  let args := ["python3"; "mia_cat.py"] in
  IS_WINDOWS mac = false /\
  Forall (fun q => looks_like_mia_cat q = Some false) [finder] /\
  proc_name running_mia_cat = Some "python3.11" /\
  str_contains "python" "python3.11" = true /\
  proc_cmdline running_mia_cat = Some args /\
  "mia_cat.py" ∈ args /\
  settings_entry f = Some "white_cat" /\
  RUNNING_ANIMALS_MAPPING !! "white_cat" = Some icons /\
  process_scan ([finder] ++ running_mia_cat :: []) = true /\
  boot (with_guard mac (process_scan ([finder] ++ running_mia_cat :: []))) f
    = Returns None.
Proof.
  intros f icons args.
  assert (H1 : IS_WINDOWS mac = false) by reflexivity.
  assert (H2 : Forall (fun q => looks_like_mia_cat q = Some false) [finder])
    by (repeat constructor).
  assert (H3 : proc_name running_mia_cat = Some "python3.11") by reflexivity.
  assert (H4 : str_contains "python" "python3.11" = true) by reflexivity.
  assert (H5 : proc_cmdline running_mia_cat = Some args) by reflexivity.
  assert (H6 : "mia_cat.py" ∈ args) by (repeat constructor).
  assert (H7 : settings_entry f = Some "white_cat") by (vm_compute; reflexivity).
  assert (H8 : RUNNING_ANIMALS_MAPPING !! "white_cat" = Some icons)
    by (vm_compute; reflexivity).
  split; [exact H1 |]. split; [exact H2 |]. split; [exact H3 |].
  split; [exact H4 |]. split; [exact H5 |]. split; [exact H6 |].
  split; [exact H7 |]. split; [exact H8 |].
  exact (scan_match_ends_start mac [finder] [] running_mia_cat "python3.11" args
           f "white_cat" icons H1 H2 H3 H4 H5 H6 H7 H8).
Defined.

Lemma settings_written_on_exit_only_witness :
  let ticks := [LoopTick;
                MenuTick (ChangeRunningAnimal "black_horse" "black_horse");
                MenuTick (LaunchApp "wechat"); LoopTick] in
  Forall not_exit ticks /\
  settings_ini (world (run mac ticks demo_app)) = settings_ini (world demo_app) /\
  config (world (run mac ticks demo_app)) = config (world demo_app).
Proof.
  intros ticks.
  assert (H1 : Forall not_exit ticks)
    by (repeat (constructor; [discriminate |]); constructor).
  split; [exact H1 |].
  exact (settings_written_on_exit_only mac ticks demo_app H1).
Defined.

Lemma exit_rewrites_one_entry_witness :
  let ticks := [LoopTick;
                MenuTick (ChangeRunningAnimal "black_horse" "black_horse");
                LoopTick] in
  let c := settings "white_cat" in
  boot mac (FileIni c) = Returns (Some demo_app) /\
  Forall menu_tick ticks /\
  Forall not_exit ticks /\
  let s := run mac ticks demo_app in
  exists s_end opts c',
    c !! "animal" = Some opts /\
    menu_step mac StopMiaCat s = (Returns tt, s_end) /\
    c' = <["animal" := <["run_animal" := running_animal (self s)]> opts]> c /\
    settings_ini (world s_end) = FileIni c' /\
    trace (world s_end)
      = trace (world s)
          ++ [LoopStop; TrayStop; WriteFile INI_FILE_PATH]
          ++ (if IS_WINDOWS mac then [CloseHandle] else []) /\
    (forall section key,
        (section, key) <> ("animal", "run_animal") ->
        entry_of c' section key = entry_of c section key) /\
    (running_animal (self s) = running_animal (self demo_app) -> c' = c).
Proof.
  intros ticks c.
  assert (H1 : boot mac (FileIni c) = Returns (Some demo_app))
    by (vm_compute; reflexivity).
  assert (H2 : Forall menu_tick ticks) by (repeat constructor).
  assert (H3 : Forall not_exit ticks)
    by (repeat (constructor; [discriminate |]); constructor).
  split; [exact H1 |]. split; [exact H2 |]. split; [exact H3 |].
  exact (exit_rewrites_one_entry mac c demo_app ticks H1 H2 H3).
Defined.

Lemma delay_bounds_witness :
  (0 <= 25)%Q /\ (25 <= 100)%Q /\ (7 <= 1000)%nat /\
  (1 # 110 <= delay 25)%Q /\ (delay 25 <= 1 # 10)%Q /\
  Q_of_float (sleep_duration (reading 7)) = Some (delay_at 7) /\
  (0 < delay_at 7)%Q /\
  (delay_at 1000 <= delay_at 7)%Q /\ (delay_at 7 <= delay_at 0)%Q /\
  (delay_at 0 < 1 # 10)%Q /\ (1 # 111 < delay_at 1000)%Q.
Proof.
  assert (H1 : (0 <= 25)%Q) by (unfold Qle; simpl; lia).
  assert (H2 : (25 <= 100)%Q) by (unfold Qle; simpl; lia).
  assert (H3 : (7 <= 1000)%nat) by lia.
  split; [exact H1 |]. split; [exact H2 |]. split; [exact H3 |].
  exact (delay_bounds 25 7 H1 H2 H3).
Defined.

Lemma switch_shows_within_fourteen_frames_witness :
  let ticks := [LoopTick; LoopTick;
                MenuTick (ChangeRunningAnimal "white_horse" "white_horse");
                LoopTick] in
  let f := FileIni (settings "white_cat") in
  boot mac f = Returns (Some demo_app) /\
  Forall menu_tick ticks /\
  ChangeRunningAnimal "black_parrot" "black_parrot" ∈ menu_callbacks make_menu /\
  let s := (menu_step mac (ChangeRunningAnimal "black_parrot" "black_parrot")
              (run mac ticks demo_app)).2 in
  exists new n d,
    RUNNING_ANIMALS_MAPPING !! "black_parrot" = Some new /\
    running_animal_icons (self s) = new /\
    n <= 16 /\
    loop (loop_steps mac n s) = InFor new 0 d /\
    length (shown_since s (loop_steps mac n s)) <= 14.
Proof.
  intros ticks f.
  assert (H1 : boot mac f = Returns (Some demo_app)) by (vm_compute; reflexivity).
  assert (H2 : Forall menu_tick ticks) by (repeat constructor).
  assert (H3 : ChangeRunningAnimal "black_parrot" "black_parrot"
                 ∈ menu_callbacks make_menu) by (repeat constructor).
  split; [exact H1 |]. split; [exact H2 |]. split; [exact H3 |].
  exact (switch_shows_within_fourteen_frames mac f demo_app ticks
           "black_parrot" "black_parrot" H1 H2 H3).
Defined.
